(** * Blackhole: the record pipeline of the logging core

    A shallow embedding of the logger of [src/root.cpp], the datetime
    generator of [src/datetime/generator.linux.cpp] with the timestamp
    token of [src/formatter/string/token.cpp], the composite loggers of
    [src/blackhole/logger.hpp] and the process name of [src/procname.cpp].

    Shared objects ([std::shared_ptr<inner_t>]) live in a store indexed by
    addresses, so that aliasing is visible.  Code that may throw returns a
    [result]; the streams of the process and the calls made on user-supplied
    objects are threaded through a small state-and-exception monad. *)

From Stdlib Require Import ZArith NArith List Ascii String Bool Lia.
From stdpp Require Import base option list strings gmap.

(** ** Common data *)

(** [cpp17::string_view]: the default-constructed view has [data() == nullptr];
    every other view borrows live bytes. *)
Inductive string_view : Type :=
| view_null
| view_of (bytes : string).

Definition to_string (v : string_view) : string :=
  match v with
  | view_null => EmptyString
  | view_of s => s
  end.

(** Attribute values: the tagged kinds null, bool, signed and unsigned
    integer and string.  A [double] is carried as its IEEE-754 bit pattern:
    no operation of the modelled code computes with it. *)
Inductive value_t : Type :=
| v_null
| v_bool (b : bool)
| v_int (i : Z)
| v_uint (u : N)
| v_double (bits : N)
| v_string (s : string).

Definition attribute_t : Type := string * value_t.
Definition attributes_t : Type := list attribute_t.

(** [attribute_pack]: a vector of references to attribute layers. *)
Definition attribute_pack : Type := list attributes_t.

(** C++ exceptions, as the two [catch] clauses of the logger tell them
    apart: a [std::exception] with its [what()], or anything else. *)
Inductive exception : Type :=
| std_exception (what : string)
| unknown_exception.

Inductive result (A : Type) : Type :=
| Returns (a : A)
| Throws (e : exception).
Arguments Returns {A} a.
Arguments Throws {A} e.

(** The line feed written by [std::endl]. *)
Definition endl : string := String (ascii_of_nat 10) EmptyString.

(** ** The root logger ([src/root.cpp]) *)
Module Root.

(** Modelled from the spec: [record_t] of [blackhole/record.hpp], whose
    definition is not among the sources.  Section 3 gives its fields:
    severity, the borrowed message view, the optional view over the rendered
    message, the attribute layers, and timestamp (in microseconds since the
    epoch), pid and tid captured at construction.  The optional view is a
    [string_view] that is null until it is set. *)
Record record_t : Type := mk_record {
  severity : Z;
  message : string_view;
  formatted : string_view;
  attributes : attribute_pack;
  timestamp : Z;
  pid : Z;
  tid : Z
}.

(** Modelled from the spec: a wall-clock instant is counted in microseconds
    since the epoch (sections 4.4 and 4.5). *)
Definition from_seconds (s : Z) : Z := s * 1000000.

(** What the constructor of a record reads from the calling thread: the
    wall clock, [getpid()] and the thread id. *)
Record env_t : Type := mk_env {
  now : Z;
  getpid : Z;
  self : Z
}.

(** Modelled from the spec: [record_t::record_t(severity, message, pack)]
    (section 4.1): timestamp, pid and tid are captured at construction and
    nothing is rendered yet. *)
Definition record_ctor (env : env_t) (sev : Z) (pattern : string_view)
    (pack : attribute_pack) : record_t :=
  {| severity := sev; message := pattern; formatted := view_null;
     attributes := pack; timestamp := now env; pid := getpid env;
     tid := self env |}.

(** Modelled from the spec: [record_t::activate(formatted)] (section 4.1)
    sets the view over the rendered message. *)
Definition activate (r : record_t) (v : string_view) : record_t :=
  {| severity := severity r; message := message r; formatted := v;
     attributes := attributes r; timestamp := timestamp r; pid := pid r;
     tid := tid r |}.

(** Modelled from the spec: the message a formatter emits for a record
    (section 4.1): the rendered message when one is set, the raw pattern
    before that. *)
Definition emitted (r : record_t) : string_view :=
  match formatted r with
  | view_null => message r
  | view_of s => view_of s
  end.

(** Modelled from the spec: [scoped_t] of [blackhole/scoped.hpp] (section 3):
    a guard owns one attribute layer and links to the previous top of the
    thread's stack. *)
Inductive scoped_t : Type :=
| scoped_first (attrs : attributes_t)
| scoped_on (attrs : attributes_t) (prev : scoped_t).

Fixpoint layers (sc : scoped_t) : list attributes_t :=
  match sc with
  | scoped_first a => [a]
  | scoped_on a p => a :: layers p
  end.

(** Modelled from the spec: [scoped_t::collect] (section 4.7, step 2): the
    layers of the thread's stack are prepended onto the pack it is handed,
    most recent scope first. *)
Definition collect (sc : scoped_t) (pack : attribute_pack) : attribute_pack :=
  layers sc ++ pack.

(** [writer_t]: the bytes accumulated in its [inner] memory writer. *)
Record writer_t : Type := mk_writer { inner_buf : string }.

Definition filter_t : Type := record_t -> result bool.

(** [logger_t::format_t], a [std::function<void(writer_t&)>]. *)
Definition format_t : Type := writer_t -> result writer_t.

(** [handler_t]: the interface the logger dispatches to. *)
Record handler_t : Type := mk_handler {
  execute : record_t -> result unit
}.

(** What a log call does to the objects it was given, in program order. *)
Inductive event : Type :=
| ev_filter (r : record_t)
| ev_format (w : writer_t)
| ev_activate (v : string_view)
| ev_execute (n : nat) (r : record_t).

(** The process as the logger acts on it: what the logger itself has
    written to the two standard streams, and the calls it has made on the
    objects it was given. *)
Record world : Type := mk_world {
  cout : string;
  cerr : string;
  events : list event
}.

(** *** The monad of a log call *)

Definition M (A : Type) : Type := world -> result A * world.

Definition ret {A} (a : A) : M A := fun w => (Returns a, w).

Definition bind {A B} (m : M A) (k : A -> M B) : M B :=
  fun w =>
    match m w with
    | (Returns a, w') => k a w'
    | (Throws e, w') => (Throws e, w')
    end.

Declare Scope log_scope.
Delimit Scope log_scope with log.
Notation "x <- m ;; k" := (bind m (fun x => k))
  (at level 100, m at next level, right associativity) : log_scope.
Notation "m ;;; k" := (bind m (fun _ => k))
  (at level 100, right associativity) : log_scope.

(** [try { body } catch (const std::exception& err) { ... } catch (...) { ... }] *)
Definition try_catch (body : M unit) (on_error : exception -> M unit) : M unit :=
  fun w =>
    match body w with
    | (Returns a, w') => (Returns a, w')
    | (Throws e, w') => on_error e w'
    end.

Definition lift {A} (r : result A) : M A := fun w => (r, w).

(** The world after further calls on user objects. *)
Definition after (w : world) (evs : list event) : world :=
  {| cout := cout w; cerr := cerr w; events := events w ++ evs |}.

Definition emit (e : event) : M unit :=
  fun w => (Returns tt, after w [e]).

(** [std::cout << s << std::endl] *)
Definition write_cout (s : string) : M unit :=
  fun w => (Returns tt,
            {| cout := cout w +:+ s +:+ endl; cerr := cerr w;
               events := events w |}).

(** *** Shared state *)

Module inner_t.
Record t : Type := mk {
  filter : filter_t;
  handlers : list handler_t
}.

(** [inner_t(handlers)]: the default filter accepts every record. *)
Definition ctor (hs : list handler_t) : t :=
  {| filter := fun _ => Returns true; handlers := hs |}.

Definition ctor_filter (f : filter_t) (hs : list handler_t) : t :=
  {| filter := f; handlers := hs |}.
End inner_t.

(** Addresses of [inner_t] objects, and the store they live in. *)
Definition addr : Type := nat.
Abbreviation heap := (gmap addr inner_t.t).

(** Threads, and the per-thread slot of [boost::thread_specific_ptr]. *)
Definition thread : Type := nat.

Module sync_t.
Record t : Type := mk {
  context : gmap thread scoped_t
}.

Definition ctor : t := {| context := ∅ |}.

(** [load]: a copy of the shared pointer, taken under the mutex. *)
Definition load (source : addr) : addr := source.

(** [context.reset(p)] on the calling thread: the slot of that thread takes
    the pointer, the null pointer leaves it empty; the cleanup function of
    the slot does nothing. *)
Definition reset (c : t) (me : thread) (p : option scoped_t) : t :=
  {| context := match p with
                | Some sc => <[me := sc]> (context c)
                | None => delete me (context c)
                end |}.

(** [context.get()] on the calling thread. *)
Definition get (c : t) (me : thread) : option scoped_t := context c !! me.
End sync_t.

Module root_logger_t.
Record t : Type := mk {
  sync : sync_t.t;
  inner : addr
}.

(** [std::make_shared<inner_t>(...)]: a fresh object in the store. *)
Definition make_shared (v : inner_t.t) (hp : heap) : addr * heap :=
  let a := fresh (dom hp) in (a, <[a := v]> hp).

Definition ctor (hs : list handler_t) (hp : heap) : t * heap :=
  let '(a, hp') := make_shared (inner_t.ctor hs) hp in
  ({| sync := sync_t.ctor; inner := a |}, hp').

Definition ctor_filter (f : filter_t) (hs : list handler_t) (hp : heap) : t * heap :=
  let '(a, hp') := make_shared (inner_t.ctor_filter f hs) hp in
  ({| sync := sync_t.ctor; inner := a |}, hp').

(** [sync->store(this->inner, value)] *)
Definition store (lg : t) (value : addr) : t :=
  {| sync := sync lg; inner := value |}.

(** [inner->apply([&](inner_t& inner) { inner.filter = std::move(fn); })]:
    the assignment is made to the object the pointer names. *)
Definition assign_filter (fn : filter_t) (i : inner_t.t) : inner_t.t :=
  {| inner_t.filter := fn; inner_t.handlers := inner_t.handlers i |}.

(** [root_logger_t::filter(fn)] *)
Definition filter (lg : t) (fn : filter_t) (hp : heap) : t * heap :=
  let inner := sync_t.load (inner lg) in
  let hp' := alter (assign_filter fn) inner hp in
  (store lg inner, hp').

(** [root_logger_t::scoped(attributes)] for the thread [me].
    Modelled from the spec: the constructor of the guard, which is not
    among the sources, pushes its layer on that thread's stack (section
    4.2). *)
Definition scoped (lg : t) (me : thread) (attrs : attributes_t) : t :=
  {| sync := {| sync_t.context :=
                  <[me := match sync_t.context (sync lg) !! me with
                          | Some prev => scoped_on attrs prev
                          | None => scoped_first attrs
                          end]>
                    (sync_t.context (sync lg)) |};
     inner := inner lg |}.

(** The function objects [consume] is instantiated with: a [writer_type],
    default-constructible, and a call operator that yields the view over
    the formatted message.  A call reports the calls it made on user
    objects; it has no access to the streams. *)
Class Format (F : Type) : Type := {
  writer_type : Type;
  writer_ctor : writer_type;
  call : F -> writer_type -> list event * result (string_view * writer_type)
}.

(** [null_format_t]: an empty writer type, and [string_view()] as the result. *)
Inductive null_format_t : Type := null_format.

#[export] Instance null_format_Format : Format null_format_t := {|
  writer_type := unit;
  writer_ctor := tt;
  call := fun _ writer => ([], Returns (view_null, writer))
|}.

(** [real_format_t]: runs the callback on the writer, then views its bytes. *)
Record real_format_t : Type := mk_real_format { fn : format_t }.

#[export] Instance real_format_Format : Format real_format_t := {|
  writer_type := writer_t;
  writer_ctor := {| inner_buf := EmptyString |};
  call := fun f writer =>
    ([ev_format writer],
     match fn f writer with
     | Returns writer' => Returns (view_of (inner_buf writer'), writer')
     | Throws e => Throws e
     end)
|}.

(** Running a call operator inside a log call. *)
Definition perform {A} (c : list event * result A) : M A :=
  fun w => (snd c, after w (fst c)).

(** What the first two statements of [consume] leave in its locals: the
    copy of the shared pointer and the copy of the filter. *)
Record captured : Type := mk_captured {
  c_inner : addr;
  c_filter : filter_t
}.

Definition capture (lg : t) (hp : heap) : option captured :=
  let inner := sync_t.load (inner lg) in
  match hp !! inner with
  | Some i => Some {| c_inner := inner; c_filter := inner_t.filter i |}
  | None => None
  end.

Definition report (err : exception) : M unit :=
  match err with
  | std_exception what => write_cout ("logging core error occurred: " +:+ what)
  | unknown_exception => write_cout "logging core error occurred: unknown"
  end.

(** The loop over [inner->handlers]; [n] is the position of the next one. *)
Fixpoint dispatch (n : nat) (hs : list handler_t) (record : record_t) : M unit :=
  match hs with
  | [] => ret tt
  | handler :: rest =>
      (try_catch
         (emit (ev_execute n record) ;;; lift (execute handler record))
         report ;;;
       dispatch (S n) rest record)%log
  end.

(** What [dispatch] writes for one handler, and for a list of them. *)
Definition diagnostic (handler : handler_t) (record : record_t) : string :=
  match execute handler record with
  | Returns _ => EmptyString
  | Throws (std_exception what) =>
      "logging core error occurred: " +:+ what +:+ endl
  | Throws unknown_exception =>
      "logging core error occurred: unknown" +:+ endl
  end.

Fixpoint diagnostics (hs : list handler_t) (record : record_t) : string :=
  match hs with
  | [] => EmptyString
  | handler :: rest => diagnostic handler record +:+ diagnostics rest record
  end.

(** One [execute] per handler, in the order of the vector. *)
Fixpoint executions (n : nat) (hs : list handler_t) (record : record_t) : list event :=
  match hs with
  | [] => []
  | _ :: rest => ev_execute n record :: executions (S n) rest record
  end.

(** The caller's pack after [collect]: the pack is passed by reference down
    to [collect], which receives its address. *)
Definition collected (lg : t) (me : thread) (pack : attribute_pack) : attribute_pack :=
  match sync_t.context (sync lg) !! me with
  | Some sc => collect sc pack
  | None => pack
  end.

(** The record a log call constructs: over the pack as [collect] left it. *)
Definition constructed (lg : t) (me : thread) (env : env_t) (severity : Z)
    (pattern : string_view) (pack : attribute_pack) : record_t :=
  record_ctor env severity pattern (collected lg me pack).

(** [consume] from the statement after the two copies on.  The result
    carries the caller's pack as the call leaves it.  [inner->handlers] is
    read through the captured pointer from the store as it is then. *)
Definition consume_from {F} `{Format F} (c : captured) (lg : t) (hp : heap)
    (me : thread) (env : env_t) (severity : Z) (pattern : string_view)
    (pack : attribute_pack) (fn : F) (w : world)
    : option (result unit * attribute_pack * world) :=
  let pack := collected lg me pack in
  match hp !! c_inner c with
  | None => None
  | Some i =>
      let record := record_ctor env severity pattern pack in
      let '(r, w') :=
        (ok <- (emit (ev_filter record) ;;; lift (c_filter c record)) ;;
         if ok : bool then
           fw <- perform (call fn writer_ctor) ;;
           let formatted := fst fw in
           emit (ev_activate formatted) ;;;
           dispatch 0 (inner_t.handlers i) (activate record formatted)
         else ret tt)%log w in
      Some (r, pack, w')
  end.

(** [root_logger_t::consume] *)
Definition consume {F} `{Format F} (lg : t) (hp : heap) (me : thread)
    (env : env_t) (severity : Z) (pattern : string_view)
    (pack : attribute_pack) (fn : F) (w : world)
    : option (result unit * attribute_pack * world) :=
  match capture lg hp with
  | Some c => consume_from c lg hp me env severity pattern pack fn w
  | None => None
  end.

(** [log(severity, pattern, pack)] *)
Definition log_pack (lg : t) (hp : heap) (me : thread) (env : env_t)
    (severity : Z) (pattern : string_view) (pack : attribute_pack) (w : world)
    : option (result unit * attribute_pack * world) :=
  consume lg hp me env severity pattern pack null_format w.

(** [log(severity, pattern)]: the pack is a local of the call. *)
Definition log (lg : t) (hp : heap) (me : thread) (env : env_t)
    (severity : Z) (pattern : string_view) (w : world)
    : option (result unit * world) :=
  let pack : attribute_pack := [] in
  match log_pack lg hp me env severity pattern pack w with
  | Some (r, _, w') => Some (r, w')
  | None => None
  end.

(** [log(severity, pattern, pack, fn)] *)
Definition log_format (lg : t) (hp : heap) (me : thread) (env : env_t)
    (severity : Z) (pattern : string_view) (pack : attribute_pack)
    (f : format_t) (w : world)
    : option (result unit * attribute_pack * world) :=
  consume lg hp me env severity pattern pack {| fn := f |} w.

(** [root_logger_t(root_logger_t&& other)], run by the thread [me]: a new
    [sync_t], the shared pointer that [load] copied out of [other], and the
    slot of the calling thread set to what [other] holds for that thread.
    [other] itself is left as it was.  ([rebind] tells the guard which slot
    to pop from; the layers it holds are not touched.) *)
Definition move_ctor (other : t) (me : thread) : t :=
  {| sync := sync_t.reset sync_t.ctor me (sync_t.get (sync other) me);
     inner := sync_t.load (inner other) |}.

(** [operator=(root_logger_t&& other)], run by the thread [me];
    [same_object] is the test [this == &other]. *)
Definition move_assign (same_object : bool) (this other : t) (me : thread) : t :=
  if same_object then this
  else
    let inner := sync_t.load (inner other) in
    let this := store this inner in
    {| sync := sync_t.reset (sync this) me (sync_t.get (sync other) me);
       inner := root_logger_t.inner this |}.

(** What a log call leaves behind, whatever the filter, the call operator
    and the handlers did.  The standard error stream is as it was.  The
    call has shown the filter the constructed record, then run the call
    operator at most once ([formats]), and then either stopped, with the
    standard output stream as it was, or called [activate] and after that
    executed every handler, in order, on the very record [activate] left,
    written one line to the standard output stream for each handler that
    threw, and returned. *)
Definition orderly (w : world) (record : record_t) (hs : list handler_t)
    (run : option (result unit * attribute_pack * world)) : Prop :=
  exists (r : result unit) (pack' : attribute_pack) (w' : world)
         (formats : list event),
    run = Some (r, pack', w')
    /\ cerr w' = cerr w
    /\ (length formats <= 1)%nat
    /\ Forall (fun ev => exists wr, ev = ev_format wr) formats
    /\ ((events w' = events w ++ ev_filter record :: formats
         /\ cout w' = cout w)
        \/ (exists v : string_view,
              r = Returns tt
              /\ events w' =
                   events w ++ ev_filter record :: formats ++
                   ev_activate v :: executions 0 hs (activate record v)
              /\ cout w' = cout w +:+ diagnostics hs (activate record v)))
    /\ (forall e, r = Throws e ->
          events w' = events w ++ ev_filter record :: formats
          /\ cout w' = cout w).

End root_logger_t.

End Root.

(** ** The datetime generator ([src/datetime/generator.linux.cpp]) and the
       timestamp token ([src/formatter/string/token.cpp]) *)
Module Datetime.

(** The tokens of a compiled pattern. *)
Inductive token_t : Type :=
| literal_t (value : string)
| usecond_t.

Definition is_percent (c : ascii) : bool := Ascii.eqb c (ascii_of_nat 37).
Definition is_f (c : ascii) : bool := Ascii.eqb c (ascii_of_nat 102).

(** The loop of [generator_t::generator_t]: [pattern] is what lies from
    [pos] on, [literal] and [tokens] are the two locals.  Where the rest
    starts with [%f] the pending literal is pushed, empty or not, and two
    characters are skipped; after the loop a pending literal is pushed only
    when it is not empty. *)
Fixpoint scan (pattern : string) (literal : string) (tokens : list token_t)
    : list token_t :=
  match pattern with
  | EmptyString =>
      match literal with
      | EmptyString => tokens
      | _ => tokens ++ [literal_t literal]
      end
  | String c rest =>
      match rest with
      | String d rest' =>
          if is_percent c && is_f d
          then scan rest' EmptyString (tokens ++ [literal_t literal; usecond_t])
          else scan rest (literal +:+ String c EmptyString) tokens
      | EmptyString => scan rest (literal +:+ String c EmptyString) tokens
      end
  end.

Record generator_t : Type := mk_generator { tokens : list token_t }.

Definition generator_ctor (pattern : string) : generator_t :=
  {| tokens := scan pattern EmptyString [] |}.

Definition make_generator (pattern : string) : generator_t :=
  generator_ctor pattern.

(** Decimal digits of an unsigned integer, most significant first; a
    [std::uint64_t] has at most twenty. *)
Definition digit (n : N) : ascii := ascii_of_N (48 + n).

Fixpoint decimal_digits (fuel : nat) (n : N) : string :=
  match fuel with
  | O => EmptyString
  | S fuel' =>
      if (n <? 10)%N then String (digit n) EmptyString
      else decimal_digits fuel' (n / 10) +:+ String (digit (n mod 10)) EmptyString
  end.

Definition decimal (n : N) : string := decimal_digits 20 n.

Fixpoint zeros (n : nat) : string :=
  match n with
  | O => EmptyString
  | S n' => String (ascii_of_nat 48) (zeros n')
  end.

(** [stream.write("{:06d}", usec)]: zero fill up to a width of six. *)
Definition write_06d (usec : N) : string :=
  zeros (6 - String.length (decimal usec)) +:+ decimal usec.

(** [std::tm] *)
Record tm : Type := mk_tm {
  tm_sec : Z; tm_min : Z; tm_hour : Z; tm_mday : Z; tm_mon : Z;
  tm_year : Z; tm_wday : Z; tm_yday : Z; tm_isdst : Z
}.

Section Render.

(** The platform's [strftime]: the bytes it produces for a format when the
    buffer is large enough. *)
Variable strftime : string -> tm -> string.

(** [std::strftime(buffer, sizeof(buffer), format, &tm)] on the buffer of
    1024 bytes of the visitor: when the bytes and the terminating zero do
    not fit, it returns 0 and nothing is streamed. *)
Definition strftime_buffer (format : string) (t : tm) : string :=
  if (String.length (strftime format t) <? 1024)%nat then strftime format t
  else EmptyString.

(** [visitor_t::operator()] *)
Definition visit (t : tm) (usec : N) (token : token_t) : string :=
  match token with
  | literal_t value => strftime_buffer value t
  | usecond_t => write_06d usec
  end.

(** [generator_t::operator()]: every token is visited on the stream. *)
Definition generate (g : generator_t) (stream : string) (t : tm) (usec : N) : string :=
  fold_left (fun out token => out +:+ visit t usec token) (tokens g) stream.

End Render.

(** Following the spec: the six zero-padded decimal digits of a
    microseconds value. *)
Definition six_digits (usec : N) : string :=
  String (digit (usec / 100000 mod 10))
 (String (digit (usec / 10000 mod 10))
 (String (digit (usec / 1000 mod 10))
 (String (digit (usec / 100 mod 10))
 (String (digit (usec / 10 mod 10))
 (String (digit (usec mod 10)) EmptyString))))).

(** Following the spec: the substrings of a pattern between the
    occurrences of [%f], read from left to right. *)
Definition cons_head (c : ascii) (ps : list string) : list string :=
  match ps with
  | [] => [String c EmptyString]
  | p :: ps' => String c p :: ps'
  end.

(** A pending literal in front of the first piece. *)
Definition prepend (literal : string) (ps : list string) : list string :=
  match ps with
  | [] => [literal]
  | p :: ps' => (literal +:+ p) :: ps'
  end.

Fixpoint pieces (pattern : string) : list string :=
  match pattern with
  | EmptyString => [EmptyString]
  | String c rest =>
      match rest with
      | String d rest' =>
          if is_percent c && is_f d then EmptyString :: pieces rest'
          else cons_head c (pieces rest)
      | EmptyString => cons_head c (pieces rest)
      end
  end.

(** The pieces joined again by [%f]. *)
Definition percent_f : string :=
  String (ascii_of_nat 37) (String (ascii_of_nat 102) EmptyString).

Fixpoint join (ps : list string) : string :=
  match ps with
  | [] => EmptyString
  | [p] => p
  | p :: ps' => p +:+ percent_f +:+ join ps'
  end.

(** Whether [%f] occurs in a string. *)
Fixpoint has_percent_f (s : string) : bool :=
  match s with
  | EmptyString => false
  | String c rest =>
      match rest with
      | String d _ => (is_percent c && is_f d) || has_percent_f rest
      | EmptyString => false
      end
  end.

(** The token list the pieces stand for: a literal for every piece, a
    microseconds token after each but the last, and no literal for an
    empty last piece. *)
Fixpoint tokens_of (ps : list string) : list token_t :=
  match ps with
  | [] => []
  | [p] => match p with EmptyString => [] | _ => [literal_t p] end
  | p :: ps' => literal_t p :: usecond_t :: tokens_of ps'
  end.

(** Following the spec: the bytes of a pattern read directly, piece by
    piece.  The text of a piece is what the platform's routine makes of it,
    or nothing when that does not fit, with its terminating zero, into 1024
    bytes; between two pieces stand the six decimal digits of the
    microseconds; an empty last piece is not rendered. *)
Fixpoint direct_pieces (strftime : string -> tm -> string) (ps : list string)
    (t : tm) (usec : N) : string :=
  match ps with
  | [] => EmptyString
  | p :: rest =>
      match rest with
      | [] =>
          match p with
          | EmptyString => EmptyString
          | _ => if (String.length (strftime p t) <? 1024)%nat
                 then strftime p t else EmptyString
          end
      | _ :: _ =>
          (if (String.length (strftime p t) <? 1024)%nat
           then strftime p t else EmptyString) +:+
          six_digits usec +:+ direct_pieces strftime rest t usec
      end
  end.

Definition direct (strftime : string -> tm -> string) (pattern : string)
    (t : tm) (usec : N) : string :=
  direct_pieces strftime (pieces pattern) t usec.

(** The pattern a token list was compiled from: a literal stands for its
    text, a microseconds token for [%f]. *)
Fixpoint unparse (ts : list token_t) : string :=
  match ts with
  | [] => EmptyString
  | literal_t value :: rest => value +:+ unparse rest
  | usecond_t :: rest => percent_f +:+ unparse rest
  end.

(** Literal and microseconds tokens in turn, starting with a literal. *)
Fixpoint alternates (ts : list token_t) : bool :=
  match ts with
  | [] => true
  | literal_t _ :: rest =>
      match rest with
      | [] => true
      | usecond_t :: rest' => alternates rest'
      | literal_t _ :: _ => false
      end
  | usecond_t :: _ => false
  end.

Definition is_usecond (t : token_t) : bool :=
  match t with
  | usecond_t => true
  | literal_t _ => false
  end.

(** The number a string of decimal digits denotes. *)
Fixpoint parse_from (acc : N) (s : string) : N :=
  match s with
  | EmptyString => acc
  | String c rest => parse_from (acc * 10 + (N_of_ascii c - 48)) rest
  end.

Definition parse (s : string) : N := parse_from 0 s.

(** [placeholder::timestamp<user>] *)
Module timestamp_user.
Record t : Type := mk {
  pattern : string;
  spec : string;
  generator : generator_t
}.

Definition default_pattern : string := "%Y-%m-%d %H:%M:%S.%f".

(** [timestamp<user>::timestamp()] *)
Definition ctor : t :=
  {| pattern := default_pattern; spec := "{}";
     generator := make_generator default_pattern |}.

End timestamp_user.

End Datetime.

(** ** The composite loggers ([src/blackhole/logger.hpp]) *)
Module Composite.

(** [attribute::set_t] *)
Definition set_t : Type := list (string * value_t).

(** The records of this interface, as [open_record] makes them:
    [record_t::invalid()], or [record_t(internal, external)]. *)
Inductive record_t : Type :=
| invalid
| record (internal external : set_t).

Definition valid (r : record_t) : bool :=
  match r with
  | invalid => false
  | record _ _ => true
  end.

(** The calls [open_record] and [push] make on the members of the logger. *)
Inductive call_t : Type :=
| call_with_scoped
| call_filter
| call_populate
| call_populate_additional
| call_populate_external
| call_handle (n : nat)
| call_exception.

(** [base_frontend_t::handle] and [log::exception_handler_t]; the handler
    runs inside the [catch] clause, with the exception in flight. *)
Definition frontend_t : Type := record_t -> result unit.
Definition exception_handler_t : Type := exception -> result unit.

Section Logger.

(** [attribute::combined_view_t], and the private members of
    [composite_logger_t] that the header only declares. *)
Variable combined_view_t : Type.
Variable with_scoped : set_t -> combined_view_t.
Variable populate : set_t -> set_t.
Variable populate_external : set_t -> set_t.

(** [log::default_exception_handler_t()] *)
Variable default_exception_handler : exception_handler_t.

Definition filter_type (FilterArgs : Type) : Type :=
  combined_view_t -> FilterArgs -> result bool.

(** The member [d] of [composite_logger_t<T, FilterArgs...>]. *)
Record composite_logger_t (FilterArgs : Type) : Type := mk_composite {
  d_enabled : bool;
  d_filter : filter_type FilterArgs;
  d_exception : exception_handler_t;
  d_frontends : list frontend_t
}.
Arguments mk_composite {FilterArgs}.
Arguments d_enabled {FilterArgs}.
Arguments d_filter {FilterArgs}.
Arguments d_exception {FilterArgs}.
Arguments d_frontends {FilterArgs}.

Section Members.
Context {FilterArgs : Type}.

(** [composite_logger_t(filter)] *)
Definition composite_ctor (filter : filter_type FilterArgs) : composite_logger_t FilterArgs :=
  {| d_enabled := true; d_filter := filter;
     d_exception := default_exception_handler; d_frontends := [] |}.

(** [enabled() const] *)
Definition enabled (lg : composite_logger_t FilterArgs) : bool := d_enabled lg.

(** [enabled(bool enable)] *)
Definition enabled_store (lg : composite_logger_t FilterArgs) (enable : bool)
    : composite_logger_t FilterArgs :=
  {| d_enabled := enable; d_filter := d_filter lg;
     d_exception := d_exception lg; d_frontends := d_frontends lg |}.

Definition set_filter (lg : composite_logger_t FilterArgs)
    (filter : filter_type FilterArgs) : composite_logger_t FilterArgs :=
  {| d_enabled := d_enabled lg; d_filter := filter;
     d_exception := d_exception lg; d_frontends := d_frontends lg |}.

Definition add_frontend (lg : composite_logger_t FilterArgs)
    (frontend : frontend_t) : composite_logger_t FilterArgs :=
  {| d_enabled := d_enabled lg; d_filter := d_filter lg;
     d_exception := d_exception lg;
     d_frontends := d_frontends lg ++ [frontend] |}.

Definition set_exception_handler (lg : composite_logger_t FilterArgs)
    (handler : exception_handler_t) : composite_logger_t FilterArgs :=
  {| d_enabled := d_enabled lg; d_filter := d_filter lg;
     d_exception := handler; d_frontends := d_frontends lg |}.

(** [open_record(attribute::set_t external, FilterArgs... args)].
    [populate_additional] is the member of the derived class [T]. *)
Definition open_record (populate_additional : set_t -> FilterArgs -> set_t)
    (lg : composite_logger_t FilterArgs) (external : set_t) (args : FilterArgs)
    : result record_t * list call_t :=
  if negb (enabled lg) then (Returns invalid, [])
  else
    let view := with_scoped external in
    match d_filter lg view args with
    | Throws e => (Throws e, [call_with_scoped; call_filter])
    | Returns false => (Returns invalid, [call_with_scoped; call_filter])
    | Returns true =>
        let internal := populate [] in
        let internal := populate_additional internal args in
        let external := populate_external external in
        (Returns (record internal external),
         [call_with_scoped; call_filter; call_populate;
          call_populate_additional; call_populate_external])
    end.

(** [open_record(FilterArgs... args)] *)
Definition open_record_args (populate_additional : set_t -> FilterArgs -> set_t)
    (lg : composite_logger_t FilterArgs) (args : FilterArgs)
    : result record_t * list call_t :=
  open_record populate_additional lg [] args.

(** [open_record(attribute::pair_t pair, FilterArgs... args)] *)
Definition open_record_pair (populate_additional : set_t -> FilterArgs -> set_t)
    (lg : composite_logger_t FilterArgs) (pair : string * value_t)
    (args : FilterArgs) : result record_t * list call_t :=
  open_record populate_additional lg [pair] args.

(** The loop of [push]: an exception of a frontend is caught and the
    exception handler called; what the handler throws is not caught. *)
Fixpoint push_from (n : nat) (frontends : list frontend_t)
    (handler : exception_handler_t) (r : record_t) : result unit * list call_t :=
  match frontends with
  | [] => (Returns tt, [])
  | frontend :: rest =>
      match frontend r with
      | Returns _ =>
          let '(res, calls) := push_from (S n) rest handler r in
          (res, call_handle n :: calls)
      | Throws e =>
          match handler e with
          | Returns _ =>
              let '(res, calls) := push_from (S n) rest handler r in
              (res, call_handle n :: call_exception :: calls)
          | Throws e' => (Throws e', [call_handle n; call_exception])
          end
      end
  end.

Definition push (lg : composite_logger_t FilterArgs) (r : record_t)
    : result unit * list call_t :=
  push_from 0 (d_frontends lg) (d_exception lg) r.

(** The operations that change a logger. *)
Inductive operation : Type :=
| op_enabled (enable : bool)
| op_set_filter (filter : filter_type FilterArgs)
| op_add_frontend (frontend : frontend_t)
| op_set_exception_handler (handler : exception_handler_t).

Definition apply_operation (lg : composite_logger_t FilterArgs) (op : operation)
    : composite_logger_t FilterArgs :=
  match op with
  | op_enabled enable => enabled_store lg enable
  | op_set_filter filter => set_filter lg filter
  | op_add_frontend frontend => add_frontend lg frontend
  | op_set_exception_handler handler => set_exception_handler lg handler
  end.

Definition is_enabling (op : operation) : bool :=
  match op with
  | op_enabled true => true
  | _ => false
  end.

End Members.

(** [filter::none], of a header that is not among the sources. *)
Variable filter_none : filter_type unit.

(** [logger_base_t]: no filter arguments, nothing more to populate. *)
Definition logger_base_ctor : composite_logger_t unit :=
  composite_ctor filter_none.

Definition logger_base_populate_additional (internal : set_t) (_ : unit) : set_t :=
  internal.

(** [verbose_logger_t<Level>]; [underlying] is the cast of a level to the
    underlying integer type of the enumeration. *)
Section Verbose.
Variable Level : Type.
Variable underlying : Level -> Z.

(** [keyword::severity<level_type>() = level]: the attribute the severity
    keyword, of a header that is not among the sources, makes of a level. *)
Variable severity_keyword : Level -> string * value_t.

Record verbose_logger_t : Type := mk_verbose {
  base : composite_logger_t Level;
  level : Z
}.

(** [default_filter { threshold }] *)
Definition default_filter (threshold : Level) : filter_type Level :=
  fun _ level => Returns (underlying level >=? underlying threshold)%Z.

(** [verbose_logger_t(level)] *)
Definition verbose_ctor (lvl : Level) : verbose_logger_t :=
  {| base := composite_ctor (default_filter lvl); level := underlying lvl |}.

(** [set_filter(level)] *)
Definition verbose_set_filter (lg : verbose_logger_t) (lvl : Level) : verbose_logger_t :=
  {| base := set_filter (base lg) (default_filter lvl); level := underlying lvl |}.

(** [set_filter(level, filter)] *)
Definition verbose_set_filter_with (lg : verbose_logger_t) (lvl : Level)
    (filter : filter_type Level) : verbose_logger_t :=
  {| base := set_filter (base lg) filter; level := underlying lvl |}.

(** [populate_additional]: the severity keyword with the level. *)
Definition verbose_populate_additional (internal : set_t) (lvl : Level) : set_t :=
  internal ++ [severity_keyword lvl].

(** [verbose_logger_t::open_record(level, external)] *)
Definition verbose_open_record (lg : verbose_logger_t) (lvl : Level)
    (external : set_t) : result record_t * list call_t :=
  open_record verbose_populate_additional (base lg) external lvl.

End Verbose.

End Logger.

Arguments mk_composite {combined_view_t FilterArgs}.
Arguments d_enabled {combined_view_t FilterArgs}.
Arguments d_filter {combined_view_t FilterArgs}.
Arguments d_exception {combined_view_t FilterArgs}.
Arguments d_frontends {combined_view_t FilterArgs}.
Arguments composite_ctor {combined_view_t} default_exception_handler {FilterArgs}.
Arguments enabled {combined_view_t FilterArgs}.
Arguments enabled_store {combined_view_t FilterArgs}.
Arguments set_filter {combined_view_t FilterArgs}.
Arguments add_frontend {combined_view_t FilterArgs}.
Arguments set_exception_handler {combined_view_t FilterArgs}.
Arguments open_record {combined_view_t} with_scoped populate populate_external
  {FilterArgs}.
Arguments open_record_args {combined_view_t} with_scoped populate populate_external
  {FilterArgs}.
Arguments open_record_pair {combined_view_t} with_scoped populate populate_external
  {FilterArgs}.
Arguments push {combined_view_t FilterArgs}.
Arguments operation : clear implicits.
Arguments op_enabled {combined_view_t FilterArgs}.
Arguments op_set_filter {combined_view_t FilterArgs}.
Arguments op_add_frontend {combined_view_t FilterArgs}.
Arguments op_set_exception_handler {combined_view_t FilterArgs}.
Arguments apply_operation {combined_view_t FilterArgs}.
Arguments is_enabling {combined_view_t FilterArgs}.
Arguments logger_base_ctor {combined_view_t}.
Arguments mk_verbose {combined_view_t Level}.
Arguments base {combined_view_t Level}.
Arguments level {combined_view_t Level}.
Arguments default_filter {combined_view_t Level}.
Arguments verbose_ctor {combined_view_t} default_exception_handler {Level}.
Arguments verbose_set_filter {combined_view_t Level}.
Arguments verbose_set_filter_with {combined_view_t Level}.
Arguments verbose_populate_additional {Level} severity_keyword.
Arguments verbose_open_record {combined_view_t} with_scoped populate
  populate_external {Level} severity_keyword.

End Composite.

(** ** The process name ([src/procname.cpp]) *)
Module Procname.

(** The two platforms the file is written for. *)
Inductive platform_t : Type := linux | apple.

(** The character arrays of the process, each under the address of its
    first byte. *)
Definition pointer : Type := N.
Definition memory_t : Type := gmap pointer (list ascii).

(** [cpp17::string_view(data, size)] as the pair it is: the view holds a
    pointer and a length, and none of the bytes. *)
Record string_view : Type := mk_view {
  data : pointer;
  size : nat
}.

(** The bytes a view shows, in the memory as it is when the view is read. *)
Definition read (m : memory_t) (v : string_view) : list ascii :=
  take (size v) (m !!! data v).

Definition NUL : ascii := Ascii.zero.

(** [::strlen]: the bytes before the first NUL.  The count ends with the
    array where the array holds no NUL. *)
Fixpoint strlen (bytes : list ascii) : nat :=
  match bytes with
  | [] => 0
  | c :: rest => if Ascii.eqb c NUL then 0 else S (strlen rest)
  end.

(** [PROC_PIDPATHINFO_MAXSIZE] of [<libproc.h>]: four times [MAXPATHLEN]. *)
Definition PROC_PIDPATHINFO_MAXSIZE : nat := 4096.

(** What the process reads from the system: its memory, the global pointer
    [program_invocation_short_name], the pid, and
    [proc_name(pid, buffer, buffersize)], which is given the buffer and
    answers with its result and the buffer as it leaves it. *)
Record os_t : Type := mk_os {
  memory : memory_t;
  program_invocation_short_name : pointer;
  proc_name : Z -> list ascii -> nat -> Z * list ascii;
  getpid : Z
}.

(** The text [%d] gives for a [pid_t]. *)
Definition print_pid (pid : Z) : string :=
  if (pid <? 0)%Z then "-" +:+ Datetime.decimal (Z.to_N (- pid))
  else Datetime.decimal (Z.to_N pid).

(** [::snprintf(buffer, size, "%d", pid)] with [text] the formatted pid: at
    most [size - 1] characters and a NUL are written over the start of the
    buffer; the result is the length of the whole text. *)
Definition snprintf (buffer : list ascii) (size : nat) (text : string) :
    Z * list ascii :=
  let written := take (size - 1) (list_ascii_of_string text) ++ [NUL] in
  (Z.of_nat (String.length text),
   if (size =? 0)%nat then buffer
   else written ++ drop (length written) buffer).

Section Process.

(** The address of the function-local [static char path[]]. *)
Variable path : pointer.

(** The static array: zero-initialized until it is first written. *)
Definition static_path (m : memory_t) : list ascii :=
  default (repeat NUL PROC_PIDPATHINFO_MAXSIZE) (m !! path).

(** [procname(pid_t pid)]: the view, and the memory the call leaves. *)
Definition procname_of (platform : platform_t) (os : os_t) (pid : Z) :
    string_view * memory_t :=
  match platform with
  | linux =>
      (mk_view (program_invocation_short_name os)
         (strlen (memory os !!! program_invocation_short_name os)),
       memory os)
  | apple =>
      let '(found, named) :=
        proc_name os pid (static_path (memory os)) PROC_PIDPATHINFO_MAXSIZE in
      if (0 <? found)%Z then
        (mk_view path (strlen named), <[path := named]> (memory os))
      else
        let '(nwritten, printed) :=
          snprintf named PROC_PIDPATHINFO_MAXSIZE (print_pid pid) in
        (mk_view path (Z.to_nat nwritten), <[path := printed]> (memory os))
  end.

(** [procname()]: the function-local [static const name] is initialized by
    the first call; [cache] is that variable, empty before it.  The result
    is the view, the variable and the memory after the call. *)
Definition procname (platform : platform_t) (os : os_t)
    (cache : option string_view) :
    string_view * option string_view * memory_t :=
  match cache with
  | Some name => (name, cache, memory os)
  | None =>
      let '(name, m) := procname_of platform os (getpid os) in
      (name, Some name, m)
  end.

(** Successive calls, each with the system as it is then: the view each
    call returns and the memory it leaves. *)
Fixpoint calls (platform : platform_t) (systems : list os_t)
    (cache : option string_view) : list (string_view * memory_t) :=
  match systems with
  | [] => []
  | os :: rest =>
      let '(name, cache', m) := procname platform os cache in
      (name, m) :: calls platform rest cache'
  end.

End Process.

End Procname.

(** ** Sample objects *)
Module Sample.
Import Root Root.root_logger_t.

Definition env0 : env_t :=
  {| now := from_seconds 1449859055; getpid := 12345; self := 57005 |}.

Definition w0 : world := {| cout := EmptyString; cerr := EmptyString; events := [] |}.

Definition accept_all : filter_t := fun _ => Returns true.
Definition reject_all : filter_t := fun _ => Returns false.
Definition broken_filter : filter_t := fun _ => Throws (std_exception "filter").

Definition quiet : handler_t := {| execute := fun _ => Returns tt |}.
Definition failing : handler_t := {| execute := fun _ => Throws (std_exception "boom") |}.
Definition crashing : handler_t := {| execute := fun _ => Throws unknown_exception |}.

Definition lg0 : t := {| sync := sync_t.ctor; inner := 0 |}.

Definition store_of (flt : filter_t) (hs : list handler_t) : heap :=
  {[ 0 := inner_t.ctor_filter flt hs ]}.

Definition msg : string_view := view_of "fatal error, please try again".

Definition request : attributes_t := [("request", v_int 1)].

Definition write_hello : format_t :=
  fun writer => Returns {| inner_buf := inner_buf writer +:+ "hello" |}.

(** A stand-in for the platform routine: the date of the third scenario of
    the spec for the default literal, the format itself otherwise. *)
Definition sample_strftime (format : string) (t : Datetime.tm) : string :=
  if String.eqb format "%Y-%m-%d %H:%M:%S." then "2015-11-18 15:50:12."
  else format.

Definition sample_tm : Datetime.tm :=
  {| Datetime.tm_sec := 12; Datetime.tm_min := 50; Datetime.tm_hour := 15;
     Datetime.tm_mday := 18; Datetime.tm_mon := 10; Datetime.tm_year := 115;
     Datetime.tm_wday := 3; Datetime.tm_yday := 321; Datetime.tm_isdst := 0 |}.

(** An enumeration of levels and its underlying values. *)
Inductive level_t : Type := debug | info | warning | error.

Definition level_value (l : level_t) : Z :=
  match l with
  | debug => 0
  | info => 1
  | warning => 2
  | error => 3
  end.

(** A stand-in for the severity keyword. *)
Definition severity_attribute (l : level_t) : string * value_t :=
  ("severity", v_int (level_value l)).

(** Stand-ins for the members of the composite logger that the header only
    declares: the view is the external set, and nothing is populated. *)
Definition plain_view (external : Composite.set_t) : Composite.set_t := external.
Definition populate_nothing (attrs : Composite.set_t) : Composite.set_t := attrs.
Definition ignore_exception : Composite.exception_handler_t := fun _ => Returns tt.
Definition plain_filter : Composite.filter_type Composite.set_t unit :=
  fun _ _ => Returns true.

End Sample.

(** ** Properties of the root logger *)
Module RootTheory.
Import Root Root.root_logger_t Sample.

Lemma append_assoc (a b c : string) : (a +:+ b) +:+ c = a +:+ (b +:+ c).
Proof.
  induction a as [|x a IH]; [reflexivity|].
  change (String x ((a +:+ b) +:+ c) = String x (a +:+ (b +:+ c))).
  now rewrite IH.
Qed.

Lemma append_empty_r (a : string) : a +:+ EmptyString = a.
Proof.
  induction a as [|x a IH]; [reflexivity|].
  change (String x (a +:+ EmptyString) = String x a).
  now rewrite IH.
Qed.

(** The loop over the handlers always returns: it executes every handler
    once, in order, and writes one line to [std::cout] per handler that
    threw. *)
Lemma dispatch_runs_all (hs : list handler_t) (n : nat) (r : record_t) (w : world) :
  dispatch n hs r w =
    (Returns tt,
     {| cout := cout w +:+ diagnostics hs r; cerr := cerr w;
        events := events w ++ executions n hs r |}).
Proof.
  revert n w. induction hs as [|h hs IH]; intros n w; simpl.
  - unfold ret. rewrite append_empty_r, app_nil_r. now destruct w.
  - unfold bind, try_catch, emit, lift, diagnostic; simpl.
    destruct (execute h r) as [[]|[what|]]; simpl; rewrite IH; simpl;
      rewrite <- ?app_assoc; rewrite ?append_assoc; reflexivity.
Qed.

(** A constructed logger names a live object, and the objects that were in
    the store are still there. *)
Lemma ctor_live (hs : list handler_t) (hp : heap) :
  snd (ctor hs hp) !! inner (fst (ctor hs hp)) = Some (inner_t.ctor hs)
  /\ forall (a : addr) (i : inner_t.t),
       hp !! a = Some i -> snd (ctor hs hp) !! a = Some i.
Proof.
  unfold ctor, make_shared. cbn [fst snd inner]. split.
  - apply lookup_insert_eq.
  - intros a i Ha. rewrite lookup_insert_ne; [exact Ha|].
    intros <-. apply (is_fresh (dom hp)). apply elem_of_dom. eauto.
Qed.

Section Consume.
Context {F : Type} `{Format F}.
Variables (lg : t) (hp : heap) (me : thread) (env : env_t).
Variables (sev : Z) (pat : string_view) (pack : attribute_pack) (f : F).
Variable i : inner_t.t.
Hypothesis live : hp !! inner lg = Some i.

(** The record a log call constructs: over the caller's pack as [collect]
    left it. *)
Let record : record_t := record_ctor env sev pat (collected lg me pack).

Ltac enter :=
  unfold consume, capture, sync_t.load; rewrite live;
  unfold consume_from; cbn [c_inner c_filter]; rewrite live;
  fold record; unfold bind, emit, lift, perform, ret, after; cbn.

Lemma consume_filter_throws (w : world) (e : exception) :
  inner_t.filter i record = Throws e ->
  consume lg hp me env sev pat pack f w =
    Some (Throws e, collected lg me pack, after w [ev_filter record]).
Proof. intros Hf. enter. now rewrite Hf. Qed.

Lemma consume_filter_rejects (w : world) :
  inner_t.filter i record = Returns false ->
  consume lg hp me env sev pat pack f w =
    Some (Returns tt, collected lg me pack, after w [ev_filter record]).
Proof. intros Hf. enter. now rewrite Hf. Qed.

Lemma consume_format_throws (w : world) (e : exception) :
  inner_t.filter i record = Returns true ->
  snd (call f writer_ctor) = Throws e ->
  consume lg hp me env sev pat pack f w =
    Some (Throws e, collected lg me pack,
          after w (ev_filter record :: fst (call f writer_ctor))).
Proof.
  intros Hf Hc. enter. rewrite Hf, Hc. cbn.
  now rewrite <- app_assoc.
Qed.

Lemma consume_dispatches (w : world) (fw : string_view * writer_type) :
  inner_t.filter i record = Returns true ->
  snd (call f writer_ctor) = Returns fw ->
  consume lg hp me env sev pat pack f w =
    Some (Returns tt, collected lg me pack,
          {| cout := cout w +:+ diagnostics (inner_t.handlers i) (activate record (fst fw));
             cerr := cerr w;
             events := events w ++
               ev_filter record :: fst (call f writer_ctor) ++
               ev_activate (fst fw) ::
               executions 0 (inner_t.handlers i) (activate record (fst fw)) |}).
Proof.
  intros Hf Hc. enter. rewrite Hf, Hc. cbn.
  rewrite dispatch_runs_all. cbn.
  repeat (rewrite <- app_assoc; cbn). reflexivity.
Qed.

End Consume.

Lemma executions_Forall (P : event -> Prop) (hs : list handler_t) (r : record_t) :
  (forall n, P (ev_execute n r)) -> forall n, Forall P (executions n hs r).
Proof.
  intros HP. induction hs as [|h hs IH]; intros n; cbn; constructor; auto.
Qed.

(** *** Failure boundary around the handlers *)

(** C2, as the code has it.  When the filter accepts the record and the
    call operator returns, the log call returns normally whatever the
    handlers do: [execute] is invoked on every handler, in order, also after
    one that threw; each handler that threw costs one line
    [logging core error occurred: ...] on the standard output stream
    ([std::cout]); nothing is written to the standard error stream. *)
Theorem handler_failures_are_reported_and_contained {F : Type} `{Format F}
    (lg : t) (hp : heap) (me : thread) (env : env_t) (sev : Z)
    (pat : string_view) (pack : attribute_pack) (f : F) (i : inner_t.t)
    (w : world) (fw : string_view * writer_type) :
  hp !! inner lg = Some i ->
  inner_t.filter i (constructed lg me env sev pat pack) = Returns true ->
  snd (call f writer_ctor) = Returns fw ->
  consume lg hp me env sev pat pack f w =
    Some (Returns tt, collected lg me pack,
          {| cout := cout w +:+
               diagnostics (inner_t.handlers i)
                 (activate (constructed lg me env sev pat pack) (fst fw));
             cerr := cerr w;
             events := events w ++
               ev_filter (constructed lg me env sev pat pack) ::
               fst (call f writer_ctor) ++
               ev_activate (fst fw) ::
               executions 0 (inner_t.handlers i)
                 (activate (constructed lg me env sev pat pack) (fst fw)) |}).
Proof. intros live Hf Hc. now apply consume_dispatches. Qed.

Lemma handler_failures_witness :
  log_pack lg0 (store_of accept_all [failing; crashing; quiet]) 0 env0 3 msg [] w0 =
    Some (Returns tt, [],
          {| cout := "logging core error occurred: boom" +:+ endl +:+
                     "logging core error occurred: unknown" +:+ endl;
             cerr := EmptyString;
             events :=
               [ev_filter (constructed lg0 0 env0 3 msg []);
                ev_activate view_null;
                ev_execute 0 (constructed lg0 0 env0 3 msg []);
                ev_execute 1 (constructed lg0 0 env0 3 msg []);
                ev_execute 2 (constructed lg0 0 env0 3 msg [])] |}).
Proof.
  exact (handler_failures_are_reported_and_contained
           lg0 (store_of accept_all [failing; crashing; quiet]) 0 env0 3 msg []
           null_format (inner_t.ctor_filter accept_all [failing; crashing; quiet])
           w0 (view_null, tt) eq_refl eq_refl eq_refl).
Defined.

(** C2, refuted as stated: a handler throws, and the diagnostic is on the
    standard output stream; the standard error stream is as it was. *)
Lemma handler_failure_is_not_written_to_stderr :
  exists w' : world,
    log_pack lg0 (store_of accept_all [failing]) 0 env0 3 msg [] w0 =
      Some (Returns tt, [], w')
    /\ cerr w' = cerr w0
    /\ cout w' = "logging core error occurred: boom" +:+ endl.
Proof. eexists. repeat split; vm_compute; reflexivity. Qed.

(** *** Rejected records *)

(** C3.  When the installed filter returns false for the constructed
    record, the log call returns at once: the only thing it has done is to
    evaluate the filter.  The call operator (and with it the user format
    callback) is not invoked, [activate] is not called, no handler is
    executed and nothing is written to the streams. *)
Theorem rejected_record_is_not_dispatched {F : Type} `{Format F}
    (lg : t) (hp : heap) (me : thread) (env : env_t) (sev : Z)
    (pat : string_view) (pack : attribute_pack) (f : F) (i : inner_t.t)
    (w : world) :
  hp !! inner lg = Some i ->
  inner_t.filter i (constructed lg me env sev pat pack) = Returns false ->
  consume lg hp me env sev pat pack f w =
    Some (Returns tt, collected lg me pack,
          after w [ev_filter (constructed lg me env sev pat pack)]).
Proof.
  intros live Hf.
  exact (consume_filter_rejects lg hp me env sev pat pack f i live w Hf).
Qed.

Lemma rejected_record_witness :
  log_format lg0 (store_of reject_all [quiet; failing]) 0 env0 3 msg []
    write_hello w0 =
    Some (Returns tt, [], after w0 [ev_filter (constructed lg0 0 env0 3 msg [])]).
Proof.
  exact (rejected_record_is_not_dispatched
           lg0 (store_of reject_all [quiet; failing]) 0 env0 3 msg []
           {| fn := write_hello |}
           (inner_t.ctor_filter reject_all [quiet; failing]) w0
           eq_refl eq_refl).
Defined.

(** *** Exceptions of the filter and of the format callback *)



Example filter_exception_run :
  log lg0 (store_of broken_filter [quiet]) 0 env0 3 msg w0 =
    Some (Throws (std_exception "filter"),
          after w0 [ev_filter (constructed lg0 0 env0 3 msg [])]).
Proof. reflexivity. Qed.

(** *** The overload without attributes *)

(** C5.  [log(s, m)] is [log(s, m, p)] on an empty pack [p] of its own.  No
    format callback runs, [activate] receives the null view, and every
    record the filter and the handlers are shown has severity [s], message
    [m] and emits [m] itself; when the filter accepts, every handler is
    executed on that record. *)
Theorem log_without_pack_emits_message_verbatim
    (lg : t) (hp : heap) (me : thread) (env : env_t) (s : Z)
    (m : string_view) (w : world) (i : inner_t.t) :
  hp !! inner lg = Some i ->
  log lg hp me env s m w =
    match log_pack lg hp me env s m [] w with
    | Some (r, _, w') => Some (r, w')
    | None => None
    end
  /\ exists (r : result unit) (w' : world) (evs : list event),
       log lg hp me env s m w = Some (r, w')
       /\ events w' = events w ++ evs
       /\ Forall (fun ev =>
                    match ev with
                    | ev_filter rec | ev_execute _ rec =>
                        severity rec = s /\ message rec = m /\ emitted rec = m
                    | ev_activate v => v = view_null
                    | ev_format _ => False
                    end) evs
       /\ (inner_t.filter i (constructed lg me env s m []) = Returns true ->
           r = Returns tt
           /\ evs =
               ev_filter (constructed lg me env s m []) ::
               ev_activate view_null ::
               executions 0 (inner_t.handlers i)
                 (activate (constructed lg me env s m []) view_null)).
Proof.
  intros live. split; [reflexivity|].
  assert (Hm : emitted (constructed lg me env s m []) = m) by reflexivity.
  assert (Hm' : emitted (activate (constructed lg me env s m []) view_null) = m)
    by reflexivity.
  unfold log, log_pack.
  destruct (inner_t.filter i (constructed lg me env s m [])) as [[|]|e] eqn:Hf.
  - rewrite (@consume_dispatches null_format_t null_format_Format
               lg hp me env s m [] null_format i live w (view_null, tt) Hf eq_refl).
    do 3 eexists. split; [reflexivity|]. cbn [events fst call null_format_Format app].
    repeat split.
    + repeat constructor. apply executions_Forall. intros n.
      repeat split; assumption.
  - rewrite (consume_filter_rejects lg hp me env s m [] null_format i live w Hf).
    do 3 eexists. split; [reflexivity|].
    repeat split; try discriminate; repeat constructor.
  - rewrite (consume_filter_throws lg hp me env s m [] null_format i live w e Hf).
    do 3 eexists. split; [reflexivity|].
    repeat split; try discriminate; repeat constructor.
Qed.

Lemma log_without_pack_witness :
  log lg0 (store_of accept_all [quiet]) 0 env0 3 msg w0 =
    match log_pack lg0 (store_of accept_all [quiet]) 0 env0 3 msg [] w0 with
    | Some (r, _, w') => Some (r, w')
    | None => None
    end.
Proof.
  exact (proj1 (log_without_pack_emits_message_verbatim
                  lg0 (store_of accept_all [quiet]) 0 env0 3 msg w0
                  (inner_t.ctor_filter accept_all [quiet]) eq_refl)).
Defined.

Example log_without_pack_run :
  log lg0 (store_of accept_all [quiet]) 0 env0 3 msg w0 =
    Some (Returns tt,
          after w0 [ev_filter (constructed lg0 0 env0 3 msg []);
                    ev_activate view_null;
                    ev_execute 0 (constructed lg0 0 env0 3 msg [])])
  /\ emitted (constructed lg0 0 env0 3 msg []) = msg.
Proof. split; reflexivity. Qed.

(** *** Scoped attributes and the caller's pack *)

(** C8, as the code has it.  [consume] hands [collect] the address of the
    caller's own pack and builds the record over that pack: there is no
    local view.  After the log call, however it ends, the caller's pack
    holds the layers of the thread's scoped stack followed by its former
    layers in their former order; it is unchanged only when the thread has
    no scoped stack. *)
Theorem scoped_layers_stay_in_the_callers_pack {F : Type} `{Format F}
    (lg : t) (hp : heap) (me : thread) (env : env_t) (sev : Z)
    (pat : string_view) (pack : attribute_pack) (f : F) (i : inner_t.t)
    (w : world) :
  hp !! inner lg = Some i ->
  exists (r : result unit) (w' : world),
    consume lg hp me env sev pat pack f w =
      Some (r,
            match sync_t.context (sync lg) !! me with
            | Some sc => layers sc ++ pack
            | None => pack
            end, w')
    /\ attributes (constructed lg me env sev pat pack) =
         match sync_t.context (sync lg) !! me with
         | Some sc => layers sc ++ pack
         | None => pack
         end.
Proof.
  intros live.
  change (match sync_t.context (sync lg) !! me with
          | Some sc => layers sc ++ pack
          | None => pack
          end) with (collected lg me pack).
  destruct (inner_t.filter i (constructed lg me env sev pat pack))
    as [[|]|e] eqn:Hf.
  - destruct (snd (call f writer_ctor)) as [fw|e] eqn:Hc.
    + rewrite (consume_dispatches lg hp me env sev pat pack f i live w fw Hf Hc).
      eauto.
    + rewrite (consume_format_throws lg hp me env sev pat pack f i live w e Hf Hc).
      eauto.
  - rewrite (consume_filter_rejects lg hp me env sev pat pack f i live w Hf).
    eauto.
  - rewrite (consume_filter_throws lg hp me env sev pat pack f i live w e Hf).
    eauto.
Qed.

Lemma scoped_layers_witness :
  exists (r : result unit) (w' : world),
    log_pack (scoped lg0 0 request) (store_of accept_all [quiet]) 0 env0 3 msg
      [[("key", v_int 42)]] w0 =
      Some (r, [request; [("key", v_int 42)]], w')
    /\ attributes (constructed (scoped lg0 0 request) 0 env0 3 msg
                     [[("key", v_int 42)]]) =
         [request; [("key", v_int 42)]].
Proof.
  exact (scoped_layers_stay_in_the_callers_pack
           (scoped lg0 0 request) (store_of accept_all [quiet]) 0 env0 3 msg
           [[("key", v_int 42)]] null_format
           (inner_t.ctor_filter accept_all [quiet]) w0 eq_refl).
Defined.

(** C8, refuted as stated: the caller's pack is empty before the call and
    holds the scoped layer after it. *)
Lemma log_changes_the_callers_pack :
  exists (r : result unit) (pack' : attribute_pack) (w' : world),
    log_pack (scoped lg0 0 request) (store_of accept_all [quiet]) 0 env0 3 msg
      [] w0 = Some (r, pack', w')
    /\ pack' = [request]
    /\ pack' <> [].
Proof. do 3 eexists. split; [reflexivity|]. split; [reflexivity | discriminate]. Qed.

(** *** Filter installation *)

(** C1, as the code has it.  [root_logger_t::filter] makes no clone: it
    assigns the predicate to the filter member of the very object the
    logger's shared pointer names and stores the same pointer back.  The
    store holds the same objects as before, the handlers of the object are
    untouched, and a later log call captures the new predicate.  A log call
    that has already taken its two copies (pointer and filter) gives the
    same result on the store after the assignment as on the store before
    it: it keeps the filter it copied and the same handlers. *)
Theorem filter_assigns_in_place (lg : t) (hp : heap) (flt : filter_t)
    (i : inner_t.t) :
  hp !! inner lg = Some i ->
  filter lg flt hp =
    (lg, <[inner lg := {| inner_t.filter := flt;
                          inner_t.handlers := inner_t.handlers i |}]> hp)
  /\ dom (snd (filter lg flt hp)) = dom hp
  /\ capture lg hp =
       Some {| c_inner := inner lg; c_filter := inner_t.filter i |}
  /\ capture (fst (filter lg flt hp)) (snd (filter lg flt hp)) =
       Some {| c_inner := inner lg; c_filter := flt |}
  /\ (forall (F : Type) (HF : Format F) (c : captured) (me : thread)
        (env : env_t) (sev : Z) (pat : string_view) (pack : attribute_pack)
        (f : F) (w : world),
        capture lg hp = Some c ->
        consume_from c (fst (filter lg flt hp)) (snd (filter lg flt hp))
          me env sev pat pack f w =
        consume_from c lg hp me env sev pat pack f w).
Proof.
  intros live.
  assert (Hlg : store lg (sync_t.load (inner lg)) = lg) by now destruct lg.
  assert (Hhp : alter (assign_filter flt) (inner lg) hp =
                <[inner lg := {| inner_t.filter := flt;
                                 inner_t.handlers := inner_t.handlers i |}]> hp).
  { apply map_eq. intros a. destruct (decide (inner lg = a)) as [<-|Hne].
    - now rewrite lookup_alter_eq, lookup_insert_eq, live.
    - now rewrite lookup_alter_ne, lookup_insert_ne. }
  unfold filter. cbn [fst snd]. rewrite Hlg. unfold sync_t.load. rewrite Hhp.
  repeat split.
  - apply set_eq. intros a. rewrite !elem_of_dom.
    destruct (decide (inner lg = a)) as [<-|Hne].
    + rewrite lookup_insert_eq, live. split; eauto.
    + now rewrite lookup_insert_ne.
  - unfold capture, sync_t.load. now rewrite live.
  - unfold capture, sync_t.load. now rewrite lookup_insert_eq.
  - intros F HF c me env sev pat pack f w Hc.
    unfold capture, sync_t.load in Hc. rewrite live in Hc.
    injection Hc as <-. unfold consume_from. cbn [c_inner c_filter].
    now rewrite lookup_insert_eq, live.
Qed.

Lemma filter_assigns_in_place_witness :
  filter lg0 reject_all (store_of accept_all [quiet]) =
    (lg0, <[inner lg0 := {| inner_t.filter := reject_all;
                            inner_t.handlers := [quiet] |}]>
            (store_of accept_all [quiet])).
Proof.
  apply (filter_assigns_in_place lg0 (store_of accept_all [quiet]) reject_all
           (inner_t.ctor_filter accept_all [quiet])).
  reflexivity.
Defined.

(** C1, refuted as stated: the inner-state object a running log call has
    captured does not stay as it was.  After [filter], the object at the
    captured address carries the new predicate, and the pointer the logger
    publishes is the captured one, not that of a clone. *)
Lemma filter_mutates_captured_object :
  let hp := store_of accept_all [quiet] in
  let record := constructed lg0 0 env0 3 msg [] in
  exists (c : captured) (before after : inner_t.t),
    capture lg0 hp = Some c
    /\ hp !! c_inner c = Some before
    /\ snd (filter lg0 reject_all hp) !! c_inner c = Some after
    /\ inner (fst (filter lg0 reject_all hp)) = c_inner c
    /\ dom (snd (filter lg0 reject_all hp)) = dom hp
    /\ inner_t.filter before record = Returns true
    /\ inner_t.filter after record = Returns false
    /\ before <> after.
Proof.
  cbv zeta.
  exists {| c_inner := 0; c_filter := accept_all |},
         (inner_t.ctor_filter accept_all [quiet]),
         (inner_t.ctor_filter reject_all [quiet]).
  repeat split; try reflexivity.
  intros Heq.
    assert (Hf : inner_t.filter (inner_t.ctor_filter accept_all [quiet])
                   (constructed lg0 0 env0 3 msg []) =
                 inner_t.filter (inner_t.ctor_filter reject_all [quiet])
                   (constructed lg0 0 env0 3 msg [])) by now rewrite Heq.
    discriminate Hf.
Qed.

End RootTheory.

(** ** Properties of the datetime generator *)
Module DatetimeTheory.
Import Datetime Sample.

Ltac div_lia := zify; Z.to_euclidean_division_equations; lia.

(** Induction over a string two characters at a time, as the scanner
    advances. *)
Lemma string_pair_ind (P : string -> Prop) :
  P EmptyString ->
  (forall c, P (String c EmptyString)) ->
  (forall c d s, P s -> P (String d s) -> P (String c (String d s))) ->
  forall s, P s.
Proof.
  intros H0 H1 H2 s.
  enough (Hboth : P s /\ forall c, P (String c s)) by apply Hboth.
  induction s as [|d s [IHs IHc]]; split; auto.
Qed.

Lemma append_nil_l (a : string) : EmptyString +:+ a = a.
Proof. reflexivity. Qed.

Lemma append_cons (c : ascii) (a b : string) :
  String c a +:+ b = String c (a +:+ b).
Proof. reflexivity. Qed.

Lemma append_one (a : string) (c : ascii) (b : string) :
  (a +:+ String c EmptyString) +:+ b = a +:+ String c b.
Proof. now rewrite RootTheory.append_assoc. Qed.

Lemma cons_head_not_nil (c : ascii) (ps : list string) : cons_head c ps <> [].
Proof. destruct ps; discriminate. Qed.

Lemma pieces_not_nil (p : string) : pieces p <> [].
Proof.
  destruct p as [|c [|d s]]; cbn [pieces];
    try destruct (is_percent c && is_f d);
    try discriminate; apply cons_head_not_nil.
Qed.

Lemma prepend_cons_head (literal : string) (c : ascii) (ps : list string) :
  ps <> [] ->
  prepend literal (cons_head c ps) = prepend (literal +:+ String c EmptyString) ps.
Proof.
  destruct ps as [|q qs]; [contradiction|]. intros _. cbn.
  now rewrite append_one.
Qed.

Lemma tokens_of_prepend_empty (literal : string) (ps : list string) :
  ps <> [] ->
  tokens_of (prepend literal (EmptyString :: ps)) =
    literal_t literal :: usecond_t :: tokens_of ps.
Proof.
  destruct ps as [|q qs]; [contradiction|]. intros _. cbn.
  now rewrite RootTheory.append_empty_r.
Qed.

Lemma scan_step (c d : ascii) (s literal : string) (toks : list token_t) :
  scan (String c (String d s)) literal toks =
    if is_percent c && is_f d
    then scan s EmptyString (toks ++ [literal_t literal; usecond_t])
    else scan (String d s) (literal +:+ String c EmptyString) toks.
Proof. reflexivity. Qed.

Lemma pieces_step (c d : ascii) (s : string) :
  pieces (String c (String d s)) =
    if is_percent c && is_f d then EmptyString :: pieces s
    else cons_head c (pieces (String d s)).
Proof. reflexivity. Qed.

(** The loop of the constructor, in terms of the pieces of the pattern. *)
Lemma scan_pieces (p : string) :
  forall (literal : string) (toks : list token_t),
    scan p literal toks = toks ++ tokens_of (prepend literal (pieces p)).
Proof.
  induction p as [| c | c d s IHs IHd] using string_pair_ind; intros literal toks.
  - cbn. rewrite RootTheory.append_empty_r.
    destruct literal; [now rewrite app_nil_r | reflexivity].
  - cbn. destruct (literal +:+ String c EmptyString) eqn:E; [|reflexivity].
    destruct literal; discriminate E.
  - rewrite scan_step, pieces_step. destruct (is_percent c && is_f d).
    + rewrite IHs, tokens_of_prepend_empty by apply pieces_not_nil.
      rewrite <- app_assoc. cbn.
      destruct (pieces s) as [|q qs] eqn:E; [now apply pieces_not_nil in E|].
      reflexivity.
    + rewrite IHd, prepend_cons_head by apply pieces_not_nil. reflexivity.
Qed.

Lemma join_cons_head (c : ascii) (ps : list string) :
  ps <> [] -> join (cons_head c ps) = String c (join ps).
Proof.
  destruct ps as [|q [|q' qs]]; [contradiction| |]; intros _; reflexivity.
Qed.

Lemma join_cons (p : string) (ps : list string) :
  ps <> [] -> join (p :: ps) = p +:+ percent_f +:+ join ps.
Proof. destruct ps; [contradiction | reflexivity]. Qed.

(** The pieces, joined by [%f], are the pattern. *)
Lemma join_pieces (p : string) : join (pieces p) = p.
Proof.
  induction p as [| c | c d s IHs IHd] using string_pair_ind; try reflexivity.
  rewrite pieces_step. destruct (is_percent c && is_f d) eqn:E.
  - apply andb_true_iff in E as [Ec Ed].
    apply Ascii.eqb_eq in Ec, Ed. subst c d.
    rewrite join_cons by apply pieces_not_nil. rewrite IHs. reflexivity.
  - rewrite join_cons_head by apply pieces_not_nil. now rewrite IHd.
Qed.



Lemma digit_eq (a b : N) : a = b -> digit a = digit b.
Proof. now intros ->. Qed.

Lemma zero_digit (b : N) : b = 0%N -> ascii_of_nat 48 = digit b.
Proof. now intros ->. Qed.

Lemma decimal_digits_step (fuel : nat) (n : N) :
  decimal_digits (S fuel) n =
    if (n <? 10)%N then String (digit n) EmptyString
    else decimal_digits fuel (n / 10) +:+ String (digit (n mod 10)) EmptyString.
Proof. reflexivity. Qed.

(** [{:06d}] on a microseconds value below one million: its six decimal
    digits, zeros included. *)
Lemma write_06d_six_digits (usec : N) :
  (usec < 1000000)%N -> write_06d usec = six_digits usec.
Proof.
  intros Hlt. unfold write_06d, decimal.
  do 6 (try (rewrite decimal_digits_step;
             match goal with
             | |- context [if (?a <? 10)%N then _ else _] =>
                 destruct (N.ltb_spec a 10)
             end;
             try (exfalso; div_lia))).
  all: cbv [String.append String.length Nat.sub zeros six_digits].
  all: repeat (apply (f_equal2 String);
               [first [apply digit_eq | apply zero_digit]; div_lia|]).
  all: reflexivity.
Qed.

Lemma tokens_make_generator (p : string) :
  tokens (make_generator p) = tokens_of (pieces p).
Proof.
  unfold make_generator, generator_ctor. cbn [tokens].
  rewrite scan_pieces. cbn [app].
  destruct (pieces p) as [|q qs] eqn:E; [now apply pieces_not_nil in E|].
  reflexivity.
Qed.

Example default_timestamp_run :
  tokens (timestamp_user.generator timestamp_user.ctor) =
    [literal_t "%Y-%m-%d %H:%M:%S."; usecond_t]
  /\ generate sample_strftime (timestamp_user.generator timestamp_user.ctor)
       EmptyString sample_tm 630953 = "2015-11-18 15:50:12.630953"
  /\ write_06d 42 = "000042".
Proof. repeat split; vm_compute; reflexivity. Qed.

(** A pending literal is pushed before every [%f], empty or not; the value
    of a [std::uint64_t] that is no microseconds value is written in full. *)
Example generator_corner_cases :
  tokens (make_generator "%f%%f.%") =
    [literal_t EmptyString; usecond_t; literal_t "%"; usecond_t; literal_t ".%"]
  /\ tokens (make_generator EmptyString) = []
  /\ write_06d 1234567 = "1234567".
Proof. repeat split; vm_compute; reflexivity. Qed.

End DatetimeTheory.

(** ** Properties of the composite loggers *)
Module CompositeTheory.
Import Composite.

Section Logger.
Variable combined_view_t : Type.
Variable with_scoped : set_t -> combined_view_t.
Variable populate : set_t -> set_t.
Variable populate_external : set_t -> set_t.

Section Members.
Context {FilterArgs : Type}.
Variable populate_additional : set_t -> FilterArgs -> set_t.

Local Abbreviation logger := (composite_logger_t combined_view_t FilterArgs).
Local Abbreviation open :=
  (open_record with_scoped populate populate_external populate_additional).

Lemma open_record_disabled (lg : logger) (external : set_t) (args : FilterArgs) :
  enabled lg = false ->
  open lg external args = (Returns invalid, []).
Proof. intros Hd. unfold open_record. now rewrite Hd. Qed.

Lemma open_record_enabled (lg : logger) (external : set_t) (args : FilterArgs) :
  enabled lg = true ->
  open lg external args =
    match d_filter lg (with_scoped external) args with
    | Throws e => (Throws e, [call_with_scoped; call_filter])
    | Returns false => (Returns invalid, [call_with_scoped; call_filter])
    | Returns true =>
        (Returns (record (populate_additional (populate []) args)
                         (populate_external external)),
         [call_with_scoped; call_filter; call_populate;
          call_populate_additional; call_populate_external])
    end.
Proof.
  intros He. unfold open_record. rewrite He. cbn [negb].
  destruct (d_filter lg (with_scoped external) args) as [[|]|e]; reflexivity.
Qed.

(** No operation but [enabled(true)] enables a disabled logger. *)
Lemma stays_disabled (ops : list (operation combined_view_t FilterArgs))
    (lg : logger) :
  forallb (fun op => negb (is_enabling op)) ops = true ->
  enabled lg = false ->
  enabled (fold_left apply_operation ops lg) = false.
Proof.
  revert lg. induction ops as [|op ops IH]; intros lg Hops Hd; [exact Hd|].
  cbn in Hops. apply andb_true_iff in Hops as [Hop Hops].
  cbn [fold_left]. apply IH; [exact Hops|].
  destruct op as [[|]| | |]; try discriminate Hop;
    first [reflexivity | exact Hd].
Qed.

(** The loop of [push] reaches every frontend as long as the exception
    handler itself returns. *)
Lemma push_from_reaches_all (handler : exception_handler_t) (r : record_t)
    (frontends : list frontend_t) (n : nat) :
  (forall e, handler e = Returns tt) ->
  fst (push_from n frontends handler r) = Returns tt
  /\ forall k, (k < length frontends)%nat ->
       In (call_handle (n + k)) (snd (push_from n frontends handler r)).
Proof.
  intros Hh. revert n. induction frontends as [|fe rest IH]; intros n.
  - split; [reflexivity | cbn; lia].
  - specialize (IH (S n)). destruct IH as [IHr IHc]. cbn [push_from].
    destruct (fe r) as [u|e]; [|rewrite Hh];
      destruct (push_from (S n) rest handler r) as [res calls];
      cbn [fst snd] in *; (split; [exact IHr|]);
      intros [|k] Hk; cbn; try (left; f_equal; lia);
      cbn in Hk; specialize (IHc k ltac:(lia));
      replace (n + S k)%nat with (S n + k)%nat by lia; auto.
Qed.

End Members.
End Logger.



Example verbose_open_record_runs :
  verbose_open_record Sample.plain_view Sample.populate_nothing
    Sample.populate_nothing Sample.severity_attribute
    (verbose_ctor Sample.ignore_exception Sample.level_value Sample.warning)
    Sample.info [] = (Returns invalid, [call_with_scoped; call_filter])
  /\ verbose_open_record Sample.plain_view Sample.populate_nothing
       Sample.populate_nothing Sample.severity_attribute
       (verbose_ctor Sample.ignore_exception Sample.level_value Sample.warning)
       Sample.warning [] =
     (Returns (record [("severity", v_int 2)] []),
      [call_with_scoped; call_filter; call_populate; call_populate_additional;
       call_populate_external]).
Proof. split; reflexivity. Qed.

(** C10.  A composite logger is constructed enabled.  Once [enabled(false)]
    has been called, and whatever other operations follow as long as none
    is [enabled(true)], every [open_record] returns the invalid record and
    calls nothing: the filter is not evaluated and no attribute is
    populated.  After [enabled(true)] the filter is consulted again, and the
    record returned is valid exactly when the filter accepts. *)
Theorem disabled_logger_opens_no_record
    {combined_view_t : Type} (with_scoped : set_t -> combined_view_t)
    (populate populate_external : set_t -> set_t)
    (handler : exception_handler_t) {FilterArgs : Type}
    (populate_additional : set_t -> FilterArgs -> set_t)
    (filter : filter_type combined_view_t FilterArgs)
    (lg : composite_logger_t combined_view_t FilterArgs)
    (ops : list (operation combined_view_t FilterArgs))
    (external : set_t) (args : FilterArgs) :
  forallb (fun op => negb (is_enabling op)) ops = true ->
  enabled (composite_ctor handler filter) = true
  /\ open_record with_scoped populate populate_external populate_additional
       (fold_left apply_operation ops (enabled_store lg false)) external args =
     (Returns invalid, [])
  /\ open_record_args with_scoped populate populate_external populate_additional
       (fold_left apply_operation ops (enabled_store lg false)) args =
     (Returns invalid, [])
  /\ (forall pair : string * value_t,
        open_record_pair with_scoped populate populate_external populate_additional
          (fold_left apply_operation ops (enabled_store lg false)) pair args =
        (Returns invalid, []))
  /\ In call_filter
       (snd (open_record with_scoped populate populate_external populate_additional
               (enabled_store (fold_left apply_operation ops (enabled_store lg false)) true)
               external args))
  /\ (forall r : record_t,
        fst (open_record with_scoped populate populate_external populate_additional
               (enabled_store (fold_left apply_operation ops (enabled_store lg false)) true)
               external args) = Returns r ->
        (valid r = true <->
         d_filter (fold_left apply_operation ops (enabled_store lg false))
           (with_scoped external) args = Returns true)).
Proof.
  intros Hops. split; [reflexivity|].
  assert (Hoff : enabled (fold_left apply_operation ops (enabled_store lg false))
                 = false) by now apply stays_disabled.
  split; [now apply open_record_disabled|].
  split; [now apply open_record_disabled|].
  split; [intros pair; now apply open_record_disabled|].
  - rewrite open_record_enabled by reflexivity.
    change (d_filter (enabled_store ?l true)) with (d_filter l).
    destruct (d_filter _ (with_scoped external) args) as [[|]|e]; cbn.
    + split; [tauto|]. intros r [= <-]. split; reflexivity.
    + split; [tauto|]. intros r [= <-]. split; discriminate.
    + split; [tauto|]. intros r Hr. discriminate Hr.
Qed.

Lemma disabled_logger_witness :
  open_record Sample.plain_view Sample.populate_nothing Sample.populate_nothing
    (verbose_populate_additional Sample.severity_attribute)
    (fold_left apply_operation
       [op_set_filter (default_filter Sample.level_value Sample.debug);
        op_add_frontend (fun _ => Returns tt);
        op_enabled false]
       (enabled_store
          (composite_ctor Sample.ignore_exception
             (default_filter Sample.level_value Sample.debug)) false))
    [] Sample.error = (Returns invalid, []).
Proof.
  apply (disabled_logger_opens_no_record
           Sample.plain_view Sample.populate_nothing Sample.populate_nothing
           Sample.ignore_exception (verbose_populate_additional Sample.severity_attribute)
           (default_filter Sample.level_value Sample.debug)
           (composite_ctor Sample.ignore_exception
              (default_filter Sample.level_value Sample.debug))
           [op_set_filter (default_filter Sample.level_value Sample.debug);
            op_add_frontend (fun _ => Returns tt);
            op_enabled false]
           [] Sample.error).
  reflexivity.
Defined.

End CompositeTheory.

(** ** Further properties of the root logger *)
Module RootExtras.
Import Root Root.root_logger_t Sample.

Lemma executions_inv (ev : event) (hs : list handler_t) (r : record_t) (k : nat) :
  In ev (executions k hs r) -> exists n, ev = ev_execute n r.
Proof.
  revert k. induction hs as [|h hs IH]; intros k Hin; [contradiction|].
  destruct Hin as [<- | Hin]; eauto.
Qed.

Lemma get_reset (c : sync_t.t) (me : thread) (p : option scoped_t) :
  sync_t.get (sync_t.reset c me p) me = p.
Proof.
  unfold sync_t.get, sync_t.reset. cbn [sync_t.context]. destruct p.
  - apply lookup_insert_eq.
  - apply lookup_delete_eq.
Qed.


(** A log call reads the logger only through its shared pointer and
    through the slot of the calling thread. *)
Lemma consume_reads_own_slot {F : Type} `{Format F} (lg1 lg2 : t) (hp : heap)
    (me : thread) (env : env_t) (sev : Z) (pat : string_view)
    (pack : attribute_pack) (f : F) (w : world) :
  inner lg1 = inner lg2 ->
  sync_t.get (sync lg1) me = sync_t.get (sync lg2) me ->
  consume lg1 hp me env sev pat pack f w = consume lg2 hp me env sev pat pack f w.
Proof.
  intros Hinner Hslot. unfold consume, capture, consume_from, collected.
  unfold sync_t.get in Hslot. now rewrite Hinner, Hslot.
Qed.

(** Whatever a log call comes to, it is orderly, as long as the call
    operator reports at most one call, a format callback. *)
Lemma consume_orderly {F : Type} `{Format F} (lg : t) (hp : heap) (me : thread)
    (env : env_t) (sev : Z) (pat : string_view) (pack : attribute_pack)
    (f : F) (i : inner_t.t) (w : world) :
  hp !! inner lg = Some i ->
  (length (fst (call f writer_ctor)) <= 1)%nat ->
  Forall (fun ev => exists wr, ev = ev_format wr) (fst (call f writer_ctor)) ->
  orderly w (constructed lg me env sev pat pack) (inner_t.handlers i)
    (consume lg hp me env sev pat pack f w).
Proof.
  intros live Hone Hcall. unfold orderly.
  destruct (inner_t.filter i (constructed lg me env sev pat pack))
    as [[|]|e] eqn:Hf.
  - destruct (snd (call f writer_ctor)) as [fw|e] eqn:Hc.
    + rewrite (RootTheory.consume_dispatches lg hp me env sev pat pack f i live
                 w fw Hf Hc).
      exists (Returns tt), (collected lg me pack). eexists.
      exists (fst (call f writer_ctor)).
      split; [reflexivity|]. cbn [events cout cerr].
      split; [reflexivity|]. split; [exact Hone|]. split; [exact Hcall|].
      split; [|intros e He; discriminate He].
      right. exists (fst fw). repeat split.
    + rewrite (RootTheory.consume_format_throws lg hp me env sev pat pack f i
                 live w e Hf Hc).
      exists (Throws e), (collected lg me pack). eexists.
      exists (fst (call f writer_ctor)).
      split; [reflexivity|]. cbn [events cout cerr after].
      split; [reflexivity|]. split; [exact Hone|]. split; [exact Hcall|].
      split; [left; split; reflexivity | intros e' _; split; reflexivity].
  - rewrite (RootTheory.consume_filter_rejects lg hp me env sev pat pack f i
               live w Hf).
    exists (Returns tt), (collected lg me pack). eexists. exists [].
    split; [reflexivity|]. cbn [events cout cerr after length].
    split; [reflexivity|]. split; [lia|]. split; [constructor|].
    split; [left; split; reflexivity | intros e' He'; discriminate He'].
  - rewrite (RootTheory.consume_filter_throws lg hp me env sev pat pack f i
               live w e Hf).
    exists (Throws e), (collected lg me pack). eexists. exists [].
    split; [reflexivity|]. cbn [events cout cerr after length].
    split; [reflexivity|]. split; [lia|]. split; [constructor|].
    split; [left; split; reflexivity | intros e' _; split; reflexivity].
Qed.

(** X1.  Whatever the filter, the format callback and the handlers of a
    log call do, return or throw, the call is orderly: the filter is shown
    the constructed record first; the format callback runs at most once,
    after it; handlers are executed only after [activate], all of them, in
    order, on the record [activate] left; the standard error stream is not
    written, the standard output stream only by the lines for handlers that
    threw; and a call that ends in an exception has called neither
    [activate] nor a handler and has written nothing. *)
Theorem log_calls_are_orderly (lg : t) (hp : heap) (me : thread) (env : env_t)
    (sev : Z) (pat : string_view) (pack : attribute_pack) (i : inner_t.t)
    (w : world) :
  hp !! inner lg = Some i ->
  orderly w (constructed lg me env sev pat pack) (inner_t.handlers i)
    (log_pack lg hp me env sev pat pack w)
  /\ forall fmt : format_t,
       orderly w (constructed lg me env sev pat pack) (inner_t.handlers i)
         (log_format lg hp me env sev pat pack fmt w).
Proof.
  intros live. split; [|intros fmt]; unfold log_pack, log_format;
    (eapply consume_orderly; [exact live | cbn; lia |]);
    cbn; repeat constructor; eauto.
Qed.

Lemma log_calls_are_orderly_witness :
  orderly w0 (constructed lg0 0 env0 3 msg []) [failing; quiet]
    (log_pack lg0 (store_of accept_all [failing; quiet]) 0 env0 3 msg [] w0)
  /\ forall fmt : format_t,
       orderly w0 (constructed lg0 0 env0 3 msg []) [failing; quiet]
         (log_format lg0 (store_of accept_all [failing; quiet]) 0 env0 3 msg []
            fmt w0).
Proof.
  exact (log_calls_are_orderly lg0 (store_of accept_all [failing; quiet]) 0 env0
           3 msg [] (inner_t.ctor_filter accept_all [failing; quiet]) w0 eq_refl).
Defined.

(** X2.  With a format callback, an accepted record is formatted once: the
    callback runs after the filter, on a freshly constructed, empty writer,
    and the view handed to [activate], and with it to every handler, is
    over exactly the bytes the callback left in that writer. *)
Theorem formatted_message_is_what_the_callback_wrote (lg : t) (hp : heap)
    (me : thread) (env : env_t) (sev : Z) (pat : string_view)
    (pack : attribute_pack) (fmt : format_t) (i : inner_t.t) (w : world)
    (written : writer_t) :
  hp !! inner lg = Some i ->
  inner_t.filter i (constructed lg me env sev pat pack) = Returns true ->
  fmt {| inner_buf := EmptyString |} = Returns written ->
  exists w' : world,
    log_format lg hp me env sev pat pack fmt w =
      Some (Returns tt, collected lg me pack, w')
    /\ events w' =
         events w ++
         [ev_filter (constructed lg me env sev pat pack);
          ev_format {| inner_buf := EmptyString |};
          ev_activate (view_of (inner_buf written))] ++
         executions 0 (inner_t.handlers i)
           (activate (constructed lg me env sev pat pack)
              (view_of (inner_buf written))).
Proof.
  intros live Hf Hfmt. unfold log_format.
  rewrite (@RootTheory.consume_dispatches real_format_t real_format_Format
             lg hp me env sev pat pack {| fn := fmt |} i live w
             (view_of (inner_buf written), written) Hf).
  - eexists. split; reflexivity.
  - cbn. now rewrite Hfmt.
Qed.

Lemma formatted_message_witness :
  exists w' : world,
    log_format lg0 (store_of accept_all [quiet]) 0 env0 3 msg [] write_hello w0 =
      Some (Returns tt, collected lg0 0 [], w')
    /\ events w' =
         events w0 ++
         [ev_filter (constructed lg0 0 env0 3 msg []);
          ev_format {| inner_buf := EmptyString |};
          ev_activate (view_of "hello")] ++
         executions 0 [quiet]
           (activate (constructed lg0 0 env0 3 msg []) (view_of "hello")).
Proof.
  exact (formatted_message_is_what_the_callback_wrote
           lg0 (store_of accept_all [quiet]) 0 env0 3 msg [] write_hello
           (inner_t.ctor_filter accept_all [quiet]) w0
           {| inner_buf := "hello" |} eq_refl eq_refl eq_refl).
Defined.

(** X3.  Installing a filter and then another leaves the store as
    installing the second alone does; installing a filter changes no object
    but the one the logger names, and not the handlers of that one. *)
Theorem filter_last_one_wins (lg : t) (hp : heap) (f g : filter_t) (i : inner_t.t) :
  hp !! inner lg = Some i ->
  filter (fst (filter lg f hp)) g (snd (filter lg f hp)) = filter lg g hp
  /\ (forall a : addr, a <> inner lg -> snd (filter lg f hp) !! a = hp !! a)
  /\ inner_t.handlers <$> snd (filter lg f hp) !! inner lg =
       Some (inner_t.handlers i).
Proof.
  intros live. unfold filter, store, sync_t.load. cbn [fst snd inner sync].
  split; [|split].
  - f_equal. apply map_eq. intros a.
    destruct (decide (inner lg = a)) as [<-|Hne].
    + rewrite !lookup_alter_eq, live. reflexivity.
    + now rewrite !lookup_alter_ne.
  - intros a Hne. now rewrite lookup_alter_ne.
  - now rewrite lookup_alter_eq, live.
Qed.

Lemma filter_last_one_wins_witness :
  filter (fst (filter lg0 reject_all (store_of accept_all [quiet]))) broken_filter
    (snd (filter lg0 reject_all (store_of accept_all [quiet]))) =
  filter lg0 broken_filter (store_of accept_all [quiet]).
Proof.
  apply (filter_last_one_wins lg0 (store_of accept_all [quiet]) reject_all
           broken_filter (inner_t.ctor_filter accept_all [quiet])).
  reflexivity.
Defined.

(** X4.  Two loggers constructed one after the other name different
    inner-state objects: a filter installed through the second is not the
    one a log call through the first captures, which stays the accept-all
    filter the constructor gave it. *)
Theorem constructed_loggers_are_independent (hs1 hs2 : list handler_t)
    (hp : heap) (f : filter_t) :
  let first := ctor hs1 hp in
  let second := ctor hs2 (snd first) in
  inner (fst first) <> inner (fst second)
  /\ capture (fst first) (snd (filter (fst second) f (snd second))) =
       Some {| c_inner := inner (fst first);
               c_filter := inner_t.filter (inner_t.ctor hs1) |}
  /\ capture (fst second) (snd (filter (fst second) f (snd second))) =
       Some {| c_inner := inner (fst second); c_filter := f |}.
Proof.
  cbv zeta.
  destruct (RootTheory.ctor_live hs1 hp) as [Hlive1 _].
  destruct (RootTheory.ctor_live hs2 (snd (ctor hs1 hp))) as [Hlive2 Hkept].
  assert (Hne : inner (fst (ctor hs1 hp)) <>
                inner (fst (ctor hs2 (snd (ctor hs1 hp))))).
  { unfold ctor at 2. unfold make_shared. cbn [fst inner]. intros Heq.
    apply (is_fresh (dom (snd (ctor hs1 hp)))). rewrite <- Heq.
    apply elem_of_dom. eauto. }
  split; [exact Hne|]. unfold capture, filter, sync_t.load. cbn [snd].
  split.
  - rewrite lookup_alter_ne by (intros Heq; now apply Hne).
    now rewrite (Hkept _ _ Hlive1).
  - now rewrite lookup_alter_eq, Hlive2.
Qed.

(** X5.  A logger made by the move constructor, or assigned to by the move
    assignment, names the inner-state object of its source, and the source
    goes on naming it: on the moving thread a log call through the
    destination is a log call through the source, and a filter installed
    through the destination is installed for the source as well. *)
Theorem moved_logger_shares_inner_state {F : Type} `{Format F}
    (this other : t) (hp : heap) (me : thread) (env : env_t) (sev : Z)
    (pat : string_view) (pack : attribute_pack) (f : F) (w : world)
    (flt : filter_t) :
  inner (move_ctor other me) = inner other
  /\ inner (move_assign false this other me) = inner other
  /\ consume (move_ctor other me) hp me env sev pat pack f w =
       consume other hp me env sev pat pack f w
  /\ consume (move_assign false this other me) hp me env sev pat pack f w =
       consume other hp me env sev pat pack f w
  /\ snd (filter (move_ctor other me) flt hp) = snd (filter other flt hp)
  /\ snd (filter (move_assign false this other me) flt hp) =
       snd (filter other flt hp).
Proof.
  repeat split; try reflexivity.
  - apply consume_reads_own_slot; [reflexivity|].
    unfold move_ctor. cbn [sync]. apply get_reset.
  - apply consume_reads_own_slot; [reflexivity|].
    unfold move_assign. cbn [sync]. apply get_reset.
Qed.



End RootExtras.

(** ** Further properties of the datetime generator *)
Module DatetimeExtras.
Import Datetime DatetimeTheory Sample.

Lemma length_append (a b : string) :
  String.length (a +:+ b) = (String.length a + String.length b)%nat.
Proof.
  induction a as [|c a IH]; [reflexivity|].
  change (S (String.length (a +:+ b)) = S (String.length a + String.length b)).
  now rewrite IH.
Qed.

Lemma length_zeros (k : nat) : String.length (zeros k) = k.
Proof. induction k as [|k IH]; cbn; [reflexivity | now rewrite IH]. Qed.

Lemma parse_from_append (a b : string) (acc : N) :
  parse_from acc (a +:+ b) = parse_from (parse_from acc a) b.
Proof.
  revert acc. induction a as [|c a IH]; intros acc; [reflexivity|].
  change (parse_from (acc * 10 + (N_of_ascii c - 48)) (a +:+ b) =
          parse_from (parse_from (acc * 10 + (N_of_ascii c - 48)) a) b).
  apply IH.
Qed.

Lemma parse_from_zeros (k : nat) : parse_from 0 (zeros k) = 0%N.
Proof. induction k as [|k IH]; [reflexivity | exact IH]. Qed.

Lemma digit_value (d : N) : (d < 10)%N -> (N_of_ascii (digit d) - 48 = d)%N.
Proof.
  intros Hd. unfold digit. rewrite N_ascii_embedding by lia. lia.
Qed.

(** The digits written for a number denote it, when there are enough of
    them. *)
Lemma parse_decimal_digits (fuel : nat) :
  forall n : N, (n < 10 ^ N.of_nat fuel)%N ->
    parse_from 0 (decimal_digits fuel n) = n.
Proof.
  induction fuel as [|fuel IH]; intros n Hn.
  - cbn in Hn. assert (n = 0%N) by lia. now subst.
  - rewrite decimal_digits_step. destruct (N.ltb_spec n 10) as [Hlt | Hge].
    + cbn [parse_from]. rewrite digit_value by exact Hlt. lia.
    + rewrite parse_from_append, IH.
      * cbn [parse_from]. rewrite digit_value by div_lia. div_lia.
      * rewrite Nat2N.inj_succ, N.pow_succ_r' in Hn.
        apply N.Div0.div_lt_upper_bound. exact Hn.
Qed.

(** A number of at least [10^k] is written in more than [k] digits. *)
Lemma long_decimal_digits (k : nat) :
  forall (fuel : nat) (n : N),
    (10 ^ N.of_nat k <= n)%N -> (k < fuel)%nat ->
    (k < String.length (decimal_digits fuel n))%nat.
Proof.
  induction k as [|k IH]; intros fuel n Hn Hk;
    (destruct fuel as [|fuel]; [lia|]); rewrite decimal_digits_step;
    destruct (N.ltb_spec n 10) as [Hlt | Hge].
  - cbn. lia.
  - rewrite length_append. cbn. lia.
  - rewrite Nat2N.inj_succ, N.pow_succ_r' in Hn.
    assert (10 ^ N.of_nat k <> 0)%N by (apply N.pow_nonzero; lia).
    lia.
  - rewrite length_append. cbn [String.length].
    assert (k < String.length (decimal_digits fuel (n / 10)))%nat; [|lia].
    apply IH; [|lia].
    rewrite Nat2N.inj_succ, N.pow_succ_r' in Hn.
    apply N.div_le_lower_bound; [lia | exact Hn].
Qed.

Lemma tokens_of_step (p q : string) (r : list string) :
  tokens_of (p :: q :: r) = literal_t p :: usecond_t :: tokens_of (q :: r).
Proof. reflexivity. Qed.

Lemma tokens_of_shape (ps : list string) :
  ps <> [] ->
  unparse (tokens_of ps) = join ps /\ alternates (tokens_of ps) = true.
Proof.
  induction ps as [|p ps IH]; [contradiction|]. intros _.
  destruct ps as [|q r].
  - destruct p; cbn; [split; reflexivity|].
    now rewrite RootTheory.append_empty_r.
  - destruct IH as [IHu IHa]; [discriminate|].
    rewrite tokens_of_step. cbn [unparse alternates]. rewrite IHu.
    split; [reflexivity | exact IHa].
Qed.

(** X7.  Compiling a pattern loses nothing: writing each literal token as
    its text and each microseconds token as [%f] gives the pattern back, so
    that two patterns with the same token list are the same pattern.  In
    every token list literal and microseconds tokens take turns, beginning
    with a literal: a microseconds token always has a literal, possibly
    empty, right before it, and no two literals are neighbours. *)
Theorem compiled_tokens_give_the_pattern_back (p p' : string) :
  unparse (tokens (make_generator p)) = p
  /\ alternates (tokens (make_generator p)) = true
  /\ (tokens (make_generator p) = tokens (make_generator p') -> p = p').
Proof.
  assert (Hback : forall q, unparse (tokens (make_generator q)) = q).
  { intros q. rewrite tokens_make_generator.
    destruct (tokens_of_shape (pieces q) (pieces_not_nil q)) as [-> _].
    apply join_pieces. }
  split; [apply Hback|]. split.
  - rewrite tokens_make_generator.
    apply (tokens_of_shape (pieces p) (pieces_not_nil p)).
  - intros Heq. rewrite <- (Hback p), <- (Hback p'). now rewrite Heq.
Qed.

Lemma pieces_without_percent_f (p : string) :
  has_percent_f p = false -> pieces p = [p].
Proof.
  induction p as [| c | c d s IHs IHd] using string_pair_ind; try reflexivity.
  intros Hfree.
  change (has_percent_f (String c (String d s)))
    with ((is_percent c && is_f d) || has_percent_f (String d s)) in Hfree.
  apply orb_false_iff in Hfree as [Hcd Hrest].
  rewrite pieces_step, Hcd, (IHd Hrest). reflexivity.
Qed.

Lemma pieces_with_percent_f (p : string) :
  has_percent_f p = true -> exists q r qs, pieces p = q :: r :: qs.
Proof.
  induction p as [| c | c d s IHs IHd] using string_pair_ind;
    try discriminate.
  intros Hhas.
  change (has_percent_f (String c (String d s)))
    with ((is_percent c && is_f d) || has_percent_f (String d s)) in Hhas.
  rewrite pieces_step. destruct (is_percent c && is_f d).
  - destruct (pieces s) as [|r qs] eqn:E; [now apply pieces_not_nil in E|].
    eauto.
  - destruct (IHd Hhas) as (q & r & qs & ->). cbn [cons_head]. eauto.
Qed.

(** X8.  A pattern holds a microseconds token exactly when [%f] occurs in
    it.  A pattern without [%f] is handed to the platform's [strftime]
    whole, as one literal, and the empty pattern has no token at all; when
    the text [strftime] makes of such a pattern does not fit the buffer of
    1024 bytes with its terminating zero, nothing is written for it. *)
Theorem patterns_without_microseconds_are_one_literal
    (strftime : string -> tm -> string) (p stream : string) (t : tm) (usec : N) :
  (In usecond_t (tokens (make_generator p)) <-> has_percent_f p = true)
  /\ (has_percent_f p = false ->
      tokens (make_generator p) =
        match p with
        | EmptyString => []
        | _ => [literal_t p]
        end
      /\ generate strftime (make_generator p) stream t usec =
           stream +:+
           match p with
           | EmptyString => EmptyString
           | _ => if (String.length (strftime p t) <? 1024)%nat
                  then strftime p t else EmptyString
           end)
  /\ (tokens (make_generator p) = [] <-> p = EmptyString).
Proof.
  assert (Hfree : has_percent_f p = false ->
                  tokens (make_generator p) =
                    match p with
                    | EmptyString => []
                    | _ => [literal_t p]
                    end).
  { intros Hp. rewrite tokens_make_generator, (pieces_without_percent_f p Hp).
    reflexivity. }
  split; [|split].
  - split.
    + intros Hin. destruct (has_percent_f p) eqn:Hp; [reflexivity|].
      rewrite (Hfree eq_refl) in Hin.
      destruct p; [destruct Hin | destruct Hin as [Hin | []]; discriminate Hin].
    + intros Hp. rewrite tokens_make_generator.
      destruct (pieces_with_percent_f p Hp) as (q & r & qs & ->).
      rewrite tokens_of_step. right. now left.
  - intros Hp. split; [exact (Hfree Hp)|].
    unfold generate. rewrite (Hfree Hp). destruct p.
    + cbn. now rewrite RootTheory.append_empty_r.
    + reflexivity.
  - split.
    + intros Hnil. destruct (has_percent_f p) eqn:Hp.
      * rewrite tokens_make_generator in Hnil.
        destruct (pieces_with_percent_f p Hp) as (q & r & qs & E).
        rewrite E, tokens_of_step in Hnil. discriminate Hnil.
      * rewrite (Hfree eq_refl) in Hnil. destruct p; [reflexivity | discriminate].
    + intros ->. reflexivity.
Qed.

Lemma patterns_without_microseconds_witness :
  tokens (make_generator "%H:%M") = [literal_t "%H:%M"]
  /\ generate sample_strftime (make_generator "%H:%M") "at " sample_tm 5 =
       "at " +:+
       (if (String.length (sample_strftime "%H:%M" sample_tm) <? 1024)%nat
        then sample_strftime "%H:%M" sample_tm else EmptyString).
Proof.
  apply (patterns_without_microseconds_are_one_literal sample_strftime
           "%H:%M" "at " sample_tm 5).
  reflexivity.
Defined.

(** X9.  What [%f] writes for any 64-bit argument reads back as that
    number: no digit is dropped.  It is never shorter than six characters,
    and it is six characters long exactly for the values below one
    million. *)
Theorem microseconds_are_written_without_loss (usec : N) :
  (usec < 2 ^ 64)%N ->
  parse (write_06d usec) = usec
  /\ (6 <= String.length (write_06d usec))%nat
  /\ (String.length (write_06d usec) = 6%nat <-> (usec < 1000000)%N).
Proof.
  intros Hword.
  assert (Hparse : parse (write_06d usec) = usec).
  { unfold parse, write_06d, decimal.
    rewrite parse_from_append, parse_from_zeros.
    apply parse_decimal_digits.
    eapply N.lt_trans; [exact Hword | reflexivity]. }
  assert (Hlen : String.length (write_06d usec) =
                 (6 - String.length (decimal usec) + String.length (decimal usec))%nat).
  { unfold write_06d. now rewrite length_append, length_zeros. }
  split; [exact Hparse|]. split; [lia|]. split.
  - intros Hsix. destruct (N.lt_ge_cases usec 1000000) as [Hlt | Hge]; [exact Hlt|].
    assert (6 < String.length (decimal usec))%nat.
    { unfold decimal. apply long_decimal_digits; [exact Hge | lia]. }
    lia.
  - intros Hlt. now rewrite write_06d_six_digits.
Qed.

Lemma microseconds_witness :
  parse (write_06d 18446744073709551615) = 18446744073709551615%N.
Proof.
  apply (microseconds_are_written_without_loss 18446744073709551615).
  reflexivity.
Defined.

Lemma pieces_append (p q : string) :
  pieces (p +:+ percent_f +:+ q) = pieces p ++ pieces q.
Proof.
  induction p as [| c | c d s IHs IHd] using string_pair_ind.
  - change (EmptyString +:+ percent_f +:+ q)
      with (String (ascii_of_nat 37) (String (ascii_of_nat 102) q)).
    rewrite pieces_step. reflexivity.
  - change (String c EmptyString +:+ percent_f +:+ q)
      with (String c (String (ascii_of_nat 37) (String (ascii_of_nat 102) q))).
    rewrite pieces_step.
    replace (is_percent c && is_f (ascii_of_nat 37)) with false
      by (now rewrite andb_false_r).
    rewrite pieces_step. reflexivity.
  - change (String c (String d s) +:+ percent_f +:+ q)
      with (String c (String d (s +:+ percent_f +:+ q))).
    rewrite !pieces_step. destruct (is_percent c && is_f d).
    + now rewrite IHs.
    + change (String d (s +:+ percent_f +:+ q))
        with (String d s +:+ percent_f +:+ q).
      rewrite IHd.
      destruct (pieces (String d s)) as [|x xs] eqn:E;
        [now apply pieces_not_nil in E | reflexivity].
Qed.

Lemma tokens_of_app (ps qs : list string) :
  qs <> [] ->
  tokens_of (ps ++ qs) =
    flat_map (fun x => [literal_t x; usecond_t]) ps ++ tokens_of qs.
Proof.
  intros Hqs. induction ps as [|p ps IH]; [reflexivity|].
  cbn [app flat_map]. destruct (ps ++ qs) as [|x xs] eqn:E.
  - destruct ps; [cbn in E; contradiction | discriminate E].
  - rewrite tokens_of_step, IH. reflexivity.
Qed.

(** X10.  What stands before an occurrence of [%f] is compiled on its own:
    the tokens of [p%fq] are a literal and a microseconds token for every
    piece of [p], followed by the tokens of [q], whatever [q] is. *)
Theorem prefix_before_microseconds_compiles_alone (p q : string) :
  tokens (make_generator (p +:+ percent_f +:+ q)) =
    flat_map (fun x => [literal_t x; usecond_t]) (pieces p) ++
    tokens (make_generator q).
Proof.
  rewrite !tokens_make_generator, pieces_append.
  apply tokens_of_app, pieces_not_nil.
Qed.

End DatetimeExtras.

(** ** The timestamp pattern, end to end *)
Module DatetimeRendering.
Import Datetime DatetimeTheory DatetimeExtras Sample.

Section Rendering.
Variable strftime : string -> tm -> string.



End Rendering.




Example timestamp_pattern_rendered_run :
  direct sample_strftime "%Y-%m-%d %H:%M:%S.%f" sample_tm 630953 =
    "2015-11-18 15:50:12.630953"
  /\ generate sample_strftime (make_generator "%Y-%m-%d %H:%M:%S.%f")
       EmptyString sample_tm 42 = "2015-11-18 15:50:12.000042".
Proof. split; vm_compute; reflexivity. Qed.

End DatetimeRendering.

(** ** Further properties of the composite loggers *)
Module CompositeExtras.
Import Composite.

(** The loop of [push] over frontends that return: each is handled, in
    order, and the loop goes on with what follows them. *)
Lemma push_from_returning (handler : exception_handler_t) (r : record_t)
    (pre post : list frontend_t) (n : nat) :
  Forall (fun frontend => frontend r = Returns tt) pre ->
  push_from n (pre ++ post) handler r =
    (fst (push_from (n + length pre) post handler r),
     map call_handle (seq n (length pre)) ++
     snd (push_from (n + length pre) post handler r)).
Proof.
  intros Hpre. revert n. induction Hpre as [|fe pre Hfe Hpre IH]; intros n.
  - cbn. rewrite Nat.add_0_r. now destruct (push_from n post handler r).
  - cbn [app push_from length seq map]. rewrite Hfe, IH.
    rewrite !Nat.add_succ_r. reflexivity.
Qed.

(** X11.  [push] does not survive its own exception handler: when a
    frontend throws and the handler called for it throws in turn, that
    second exception leaves [push], and the frontends after the failing one
    are not handled.  The frontends before it, which returned, were all
    handled, in order. *)
Theorem push_ends_where_the_exception_handler_throws
    {combined_view_t FilterArgs : Type}
    (lg : composite_logger_t combined_view_t FilterArgs) (r : record_t)
    (pre post : list frontend_t) (failing : frontend_t) (e e' : exception) :
  d_frontends lg = pre ++ failing :: post ->
  Forall (fun frontend => frontend r = Returns tt) pre ->
  failing r = Throws e ->
  d_exception lg e = Throws e' ->
  push lg r =
    (Throws e',
     map call_handle (seq 0 (length pre)) ++
     [call_handle (length pre); call_exception]).
Proof.
  intros Hfs Hpre Hfail Hhandler. unfold push. rewrite Hfs.
  rewrite push_from_returning by exact Hpre.
  cbn [push_from Nat.add]. now rewrite Hfail, Hhandler.
Qed.

Lemma push_ends_witness :
  push (add_frontend
          (add_frontend
             (add_frontend
                (composite_ctor (fun e => Throws e) Sample.plain_filter)
                (fun _ => Returns tt))
             (fun _ => Throws unknown_exception))
          (fun _ => Returns tt))
       invalid =
    (Throws unknown_exception, [call_handle 0; call_handle 1; call_exception]).
Proof.
  apply (push_ends_where_the_exception_handler_throws
           (add_frontend
              (add_frontend
                 (add_frontend
                    (composite_ctor (fun e => Throws e) Sample.plain_filter)
                    (fun _ => Returns tt))
                 (fun _ => Throws unknown_exception))
              (fun _ => Returns tt))
           invalid [fun _ => Returns tt] [fun _ => Returns tt]
           (fun _ => Throws unknown_exception) unknown_exception
           unknown_exception);
    [reflexivity | repeat constructor | reflexivity | reflexivity].
Defined.

(** X12.  Frontends are handled in the order they were added.  On a logger
    whose frontends all return, [push] handles each of them once and never
    calls the exception handler; a frontend added to it is handled after
    them, and only if it throws is the exception handler called, whose own
    outcome is then that of [push]. *)
Theorem added_frontend_is_handled_last
    {combined_view_t FilterArgs : Type}
    (lg : composite_logger_t combined_view_t FilterArgs) (r : record_t)
    (frontend : frontend_t) :
  Forall (fun known => known r = Returns tt) (d_frontends lg) ->
  push lg r =
    (Returns tt, map call_handle (seq 0 (length (d_frontends lg))))
  /\ push (add_frontend lg frontend) r =
       match frontend r with
       | Returns _ =>
           (Returns tt,
            map call_handle (seq 0 (length (d_frontends lg))) ++
            [call_handle (length (d_frontends lg))])
       | Throws e =>
           (d_exception lg e,
            map call_handle (seq 0 (length (d_frontends lg))) ++
            [call_handle (length (d_frontends lg)); call_exception])
       end.
Proof.
  intros Hall. split.
  - unfold push. rewrite <- (app_nil_r (d_frontends lg)) at 1.
    rewrite push_from_returning by exact Hall. cbn. now rewrite app_nil_r.
  - unfold push, add_frontend. cbn [d_frontends d_exception].
    rewrite push_from_returning by exact Hall. cbn [push_from Nat.add].
    destruct (frontend r) as [[]|e]; [reflexivity|].
    destruct (d_exception lg e) as [[]|e']; reflexivity.
Qed.

Lemma added_frontend_witness :
  push (add_frontend (composite_ctor Sample.ignore_exception Sample.plain_filter)
          (fun _ => Returns tt)) invalid =
    (Returns tt, [call_handle 0]).
Proof.
  apply (added_frontend_is_handled_last
           (add_frontend (composite_ctor Sample.ignore_exception Sample.plain_filter)
              (fun _ => Returns tt))
           invalid (fun _ => Returns tt)).
  repeat constructor.
Defined.


(** X14.  [set_filter(level)] on a verbose logger replaces whatever filter
    it had by the threshold of that level and records the level: on an
    enabled logger, a record opened afterwards is valid exactly from that
    level on, and a valid one carries the severity keyword of the level of
    the call as its last internal attribute. *)
Theorem verbose_set_filter_installs_the_threshold
    {combined_view_t : Type} (with_scoped : set_t -> combined_view_t)
    (populate populate_external : set_t -> set_t)
    {Level : Type} (underlying : Level -> Z)
    (severity_keyword : Level -> string * value_t)
    (lg : verbose_logger_t combined_view_t Level) (T lvl : Level)
    (external : set_t) :
  enabled (base lg) = true ->
  level (verbose_set_filter underlying lg T) = underlying T
  /\ enabled (base (verbose_set_filter underlying lg T)) = true
  /\ verbose_open_record with_scoped populate populate_external severity_keyword
       (verbose_set_filter underlying lg T) lvl external =
     if (underlying lvl >=? underlying T)%Z
     then (Returns (record (populate [] ++ [severity_keyword lvl])
                           (populate_external external)),
           [call_with_scoped; call_filter; call_populate;
            call_populate_additional; call_populate_external])
     else (Returns invalid, [call_with_scoped; call_filter]).
Proof.
  intros He. split; [reflexivity|]. split; [exact He|].
  unfold verbose_open_record.
  rewrite CompositeTheory.open_record_enabled by exact He.
  cbn [verbose_set_filter base set_filter d_filter]. unfold default_filter.
  destruct (underlying lvl >=? underlying T)%Z; reflexivity.
Qed.

Lemma verbose_set_filter_witness :
  verbose_open_record Sample.plain_view Sample.populate_nothing
    Sample.populate_nothing Sample.severity_attribute
    (verbose_set_filter Sample.level_value
       (verbose_ctor Sample.ignore_exception Sample.level_value Sample.debug)
       Sample.error)
    Sample.warning [] =
  (Returns invalid, [call_with_scoped; call_filter]).
Proof.
  apply (verbose_set_filter_installs_the_threshold
           Sample.plain_view Sample.populate_nothing Sample.populate_nothing
           Sample.level_value Sample.severity_attribute
           (verbose_ctor Sample.ignore_exception Sample.level_value Sample.debug)
           Sample.error Sample.warning []).
  reflexivity.
Defined.

End CompositeExtras.

(** ** Properties of the process name *)
Module ProcnameTheory.
Import Datetime Procname.

Lemma calls_cached (path : pointer) (platform : platform_t)
    (systems : list os_t) (name : string_view) :
  calls path platform systems (Some name) =
    map (fun os => (name, memory os)) systems.
Proof.
  induction systems as [|os rest IH]; [reflexivity|].
  cbn [calls procname map]. now rewrite IH.
Qed.

(** An array just written holds what was written. *)
Lemma lookup_written (m : memory_t) (p : pointer) (bytes : list ascii) :
  <[p := bytes]> m !!! p = bytes.
Proof. apply lookup_total_insert_eq. Qed.

(** [strlen] counts the bytes in front of the first NUL. *)
Lemma strlen_terminated (name rest : list ascii) :
  Forall (fun c => c <> NUL) name ->
  strlen (name ++ NUL :: rest) = length name.
Proof.
  induction 1 as [|c name Hc _ IH]; [reflexivity|].
  cbn [app strlen length].
  destruct (Ascii.eqb_spec c NUL) as [->|_]; [contradiction|].
  now rewrite IH.
Qed.

Lemma take_terminated (name rest : list ascii) :
  take (length name) (name ++ rest) = name.
Proof.
  induction name as [|c name IH]; [now destruct rest|].
  cbn [length app take]. now rewrite IH.
Qed.

Lemma length_chars (s : string) :
  length (list_ascii_of_string s) = String.length s.
Proof.
  induction s as [|c s IH]; [reflexivity|].
  cbn [list_ascii_of_string length String.length]. now rewrite IH.
Qed.

Lemma length_decimal_digits (fuel : nat) :
  forall n : N, (String.length (decimal_digits fuel n) <= fuel)%nat.
Proof.
  induction fuel as [|fuel IH]; intros n; [cbn; lia|].
  rewrite DatetimeTheory.decimal_digits_step.
  destruct (n <? 10)%N; [cbn; lia|].
  rewrite DatetimeExtras.length_append. specialize (IH (n / 10)%N).
  cbn [String.length]. lia.
Qed.

(** A printed pid is short: it fits the static array with room to spare. *)
Lemma length_print_pid (pid : Z) :
  (String.length (print_pid pid) <= 21)%nat.
Proof.
  unfold print_pid, decimal.
  destruct (pid <? 0)%Z.
  - change ("-" +:+ ?s) with (String "-" s). cbn [String.length].
    pose proof (length_decimal_digits 20 (Z.to_N (- pid))). lia.
  - pose proof (length_decimal_digits 20 (Z.to_N pid)). lia.
Qed.

(** What [snprintf] leaves of a printed pid in the static array. *)
Lemma snprintf_print_pid (buffer : list ascii) (pid : Z) :
  snprintf buffer PROC_PIDPATHINFO_MAXSIZE (print_pid pid) =
    (Z.of_nat (String.length (print_pid pid)),
     list_ascii_of_string (print_pid pid) ++
     NUL :: drop (S (String.length (print_pid pid))) buffer).
Proof.
  unfold snprintf. pose proof (length_print_pid pid) as Hlen.
  change (PROC_PIDPATHINFO_MAXSIZE =? 0)%nat with false. cbv iota.
  rewrite take_ge
    by (rewrite length_chars; unfold PROC_PIDPATHINFO_MAXSIZE; lia).
  rewrite length_app, length_chars. cbn [length].
  rewrite <- app_assoc. cbn [app].
  now replace (String.length (print_pid pid) + 1)%nat
    with (S (String.length (print_pid pid))) by lia.
Qed.

(** X15.  The process name is found once, and as a view.  The first call of
    [procname()] asks the system; every later call returns the very view,
    pointer and length, the first one made and writes nothing, so that what
    a later caller reads through it is what the memory holds there by then.
    On Linux the view is over [program_invocation_short_name], as long as
    the string there is, and nothing is written.  On macOS the view is over
    the function's static array: where [proc_name] answers with a positive
    number, as long as the string [proc_name] left there; otherwise over the
    pid printed in decimal and terminated there. *)
Theorem process_name_is_found_once (path : pointer) (platform : platform_t)
    (first : os_t) (later : list os_t) :
  calls path platform (first :: later) None =
    procname_of path platform first (getpid first)
    :: map (fun os =>
              (fst (procname_of path platform first (getpid first)), memory os))
         later
  /\ procname_of path linux first (getpid first) =
       (mk_view (program_invocation_short_name first)
          (strlen (memory first !!! program_invocation_short_name first)),
        memory first)
  /\ (forall name rest : list ascii,
        Forall (fun c => c <> NUL) name ->
        memory first !!! program_invocation_short_name first =
          name ++ NUL :: rest ->
        read (memory first)
          (fst (procname_of path linux first (getpid first))) = name)
  /\ (forall (found : Z) (named : list ascii),
        proc_name first (getpid first) (static_path path (memory first))
          PROC_PIDPATHINFO_MAXSIZE = (found, named) ->
        (0 < found)%Z ->
        procname_of path apple first (getpid first) =
          (mk_view path (strlen named), <[path := named]> (memory first))
        /\ forall name rest : list ascii,
             Forall (fun c => c <> NUL) name ->
             named = name ++ NUL :: rest ->
             read (<[path := named]> (memory first))
               (mk_view path (strlen named)) = name)
  /\ (forall (found : Z) (named : list ascii),
        proc_name first (getpid first) (static_path path (memory first))
          PROC_PIDPATHINFO_MAXSIZE = (found, named) ->
        (found <= 0)%Z ->
        exists printed : list ascii,
          procname_of path apple first (getpid first) =
            (mk_view path (String.length (print_pid (getpid first))),
             <[path := printed]> (memory first))
          /\ printed =
               list_ascii_of_string (print_pid (getpid first)) ++
               NUL :: drop (S (String.length (print_pid (getpid first)))) named
          /\ read (<[path := printed]> (memory first))
               (mk_view path (String.length (print_pid (getpid first)))) =
             list_ascii_of_string (print_pid (getpid first))).
Proof.
  split; [|split; [|split; [|split]]].
  - cbn [calls procname].
    destruct (procname_of path platform first (getpid first)) as [name m].
    cbn [fst]. now rewrite calls_cached.
  - reflexivity.
  - intros name rest Hname Hbytes. unfold read. cbn [procname_of fst data size].
    rewrite Hbytes, strlen_terminated by exact Hname.
    apply take_terminated.
  - intros found named Hcall Hfound. unfold procname_of. rewrite Hcall.
    destruct (Z.ltb_spec 0 found) as [_|Hle]; [|lia].
    split; [reflexivity|].
    intros name rest Hname ->. unfold read. cbn [data size].
    rewrite lookup_written, strlen_terminated by exact Hname.
    apply take_terminated.
  - intros found named Hcall Hfound. unfold procname_of. rewrite Hcall.
    destruct (Z.ltb_spec 0 found) as [Hlt|_]; [lia|].
    rewrite snprintf_print_pid, Nat2Z.id.
    eexists. split; [reflexivity|]. split; [reflexivity|].
    unfold read. cbn [data size].
    rewrite lookup_written, <- length_chars.
    apply take_terminated.
Qed.

(** On macOS, a process [proc_name] knows as [blackhole]. *)
Lemma process_name_witness :
  procname_of 64%N apple
    {| memory := ∅; program_invocation_short_name := 0%N;
       proc_name := fun _ buffer _ =>
         (9%Z, list_ascii_of_string "blackhole" ++ drop 9 buffer);
       getpid := 12345%Z |} 12345%Z =
  (mk_view 64%N 9,
   <[64%N := list_ascii_of_string "blackhole" ++
             drop 9 (repeat NUL PROC_PIDPATHINFO_MAXSIZE)]> ∅).
Proof.
  destruct (process_name_is_found_once 64%N apple
              {| memory := ∅; program_invocation_short_name := 0%N;
                 proc_name := fun _ buffer _ =>
                   (9%Z, list_ascii_of_string "blackhole" ++ drop 9 buffer);
                 getpid := 12345%Z |} [])
    as (_ & _ & _ & Hfound & _).
  destruct (Hfound 9%Z
              (list_ascii_of_string "blackhole" ++
               drop 9 (repeat NUL PROC_PIDPATHINFO_MAXSIZE))
              eq_refl eq_refl) as [Hview _].
  exact Hview.
Defined.

(** The view follows the bytes: after the program name is rewritten in
    place, a later call returns the view of the first call, and the caller
    reads the new bytes through it. *)
Example process_name_follows_the_bytes :
  let before :=
    {| memory := {[ 8%N := list_ascii_of_string "blackhole" ++ [NUL] ]};
       program_invocation_short_name := 8%N;
       proc_name := fun _ buffer _ => (0%Z, buffer); getpid := 1%Z |} in
  let after :=
    {| memory := {[ 8%N := list_ascii_of_string "whitehole" ++ [NUL] ]};
       program_invocation_short_name := 8%N;
       proc_name := fun _ buffer _ => (0%Z, buffer); getpid := 1%Z |} in
  map (fun call => string_of_list_ascii (read (snd call) (fst call)))
    (calls 64%N linux [before; after] None) = ["blackhole"; "whitehole"]
  /\ map fst (calls 64%N linux [before; after] None) = [mk_view 8%N 9; mk_view 8%N 9].
Proof. split; vm_compute; reflexivity. Qed.

(** On macOS without an answer from [proc_name], the pid is printed. *)
Example process_name_falls_back_to_the_pid :
  let os :=
    {| memory := ∅; program_invocation_short_name := 0%N;
       proc_name := fun _ buffer _ => (0%Z, buffer); getpid := 12345%Z |} in
  string_of_list_ascii
    (read (snd (procname_of 64%N apple os 12345%Z))
       (fst (procname_of 64%N apple os 12345%Z))) = "12345"
  /\ fst (procname_of 64%N apple os 12345%Z) = mk_view 64%N 5.
Proof. split; vm_compute; reflexivity. Qed.

End ProcnameTheory.
